(** * Event stream: buffer, cursor, subscription filter and publisher

    A shallow embedding of the Go packages [stream] / [event]:
    the single-writer linked event buffer ([eventBuffer], [bufferItem],
    [bufferLink]), the cursor step [bufferItem.Next], the subscription
    loop [Subscription.Next] with its [filter], and the publisher's
    [Publish] hand-off.

    Conventions.
    - [int64] values are [Z] with the wrap-around of [atomic.AddInt64]
      written out ([wrap64]); [uint64] indices are only stored, never
      computed with, and are plain [Z].
    - Slices are lists; a nil slice and an empty slice are both [[]]
      (the code only ever asks for [len]).
    - Pointers are indices into an append-only store of items and a store
      of links; [atomic.Value] is an [option] (empty until the first Store).
    - Channels that are only ever closed ([ch], [droppedCh], [forceClosed],
      [ctx.Done()]) are booleans: [true] once closed.
    - A Go panic is the result [Panic msg]; a [select] with no ready case
      is [Blocked]. *)

From Stdlib Require Import ZArith Lia String List Bool.
From stdpp Require Import gmap strings list.

Local Open Scope string_scope.
Local Open Scope Z_scope.
Local Open Scope list_scope.

(** ** Events and subscribe requests *)

Definition AllKeys : string := "*".

(** [interface{}]: the stream never looks inside a payload, so it is an
    opaque handle. *)
Definition any := nat.

Record Event := mkEvent {
  Topic : string;
  Key : string;
  EIndex : Z;
  Payload : any
}.

Record SubscribeRequest := mkSubscribeRequest {
  topics : gmap string (list string)
}.

(** ** filter *)

(** The test of the inner loop: [e.Key == k || k == AllKeys]. *)
Definition key_matches (e : Event) (k : string) : bool :=
  String.eqb (Key e) k || String.eqb k AllKeys.

(** [for _, k := range req.topics[e.Topic] { if ... { count++ } }] *)
Fixpoint count_keys (e : Event) (ks : list string) (count : nat) : nat :=
  match ks with
  | [] => count
  | k :: ks' => count_keys e ks' (if key_matches e k then S count else count)
  end.

(** First pass of [filter]. The counter is a Go [int]; it is bounded by the
    number of (event, key) pairs held in memory, so it is a [nat] here. *)
Fixpoint count_loop (req : SubscribeRequest) (events : list Event) (count : nat) : nat :=
  match events with
  | [] => count
  | e :: es =>
      match topics req !! Topic e with
      | Some ks => count_loop req es (count_keys e ks count)
      | None => count_loop req es count
      end
  end.

(** [for _, k := range req.topics[e.Topic] { if ... { result = append(result, e) } }] *)
Fixpoint append_keys (e : Event) (ks : list string) (result : list Event) : list Event :=
  match ks with
  | [] => result
  | k :: ks' => append_keys e ks' (if key_matches e k then result ++ [e] else result)
  end.

(** Second pass of [filter]. *)
Fixpoint copy_loop (req : SubscribeRequest) (events : list Event) (result : list Event) : list Event :=
  match events with
  | [] => result
  | e :: es =>
      match topics req !! Topic e with
      | Some ks => copy_loop req es (append_keys e ks result)
      | None => copy_loop req es result
      end
  end.

Definition filter (req : SubscribeRequest) (events : list Event) : list Event :=
  if (length events =? 0)%nat then events
  else
    let count := count_loop req events 0%nat in
    if (count =? 0)%nat then []
    else if (count =? length events)%nat then events
    else copy_loop req events [].

(** What the interest set means: the topic is present and some listed key
    is the event's key or the wildcard. *)
Definition event_matches (req : SubscribeRequest) (e : Event) : bool :=
  match topics req !! Topic e with
  | Some ks => existsb (key_matches e) ks
  | None => false
  end.

(** How many listed keys of its topic an event satisfies. *)
Definition hits (req : SubscribeRequest) (e : Event) : nat :=
  match topics req !! Topic e with
  | Some ks => length (List.filter (key_matches e) ks)
  | None => 0%nat
  end.

(** ** Errors, 64-bit integers and time *)

(** A Go [error] value, identified by its message. *)
Inductive error := errors_New (msg : string).

Definition fmt_Errorf (msg : string) : error := errors_New msg.
Definition context_Canceled : error := errors_New "context canceled".
Definition context_DeadlineExceeded : error := errors_New "context deadline exceeded".
Definition ErrSubscriptionClosed : error :=
  errors_New "subscription closed by server, client should resubscribe".

Definition MinInt64 : Z := - 2 ^ 63.
Definition MaxInt64 : Z := 2 ^ 63 - 1.

(** Two's complement wrap-around of an [int64] result. *)
Definition wrap64 (z : Z) : Z := (z + 2 ^ 63) mod 2 ^ 64 - 2 ^ 63.

(** [time.Duration]: nanoseconds in an [int64]. *)
Definition Nanosecond : Z := 1.
Definition Hour : Z := 3600 * 1000000000.
Definition defaultTTL : Z := 1 * Hour.

(** [t.Sub(u)]: the difference, saturated at the ends of [Duration]. *)
Definition time_Sub (t u : Z) : Z :=
  if MaxInt64 <? t - u then MaxInt64
  else if t - u <? MinInt64 then MinInt64
  else t - u.

(** ** The buffer's memory *)

Abbreviation ptr := nat.

Record bufferLink := mkLink {
  next : option ptr;      (* atomic.Value holding the successor item *)
  ch : bool;              (* closed when the next event is published *)
  droppedCh : bool        (* closed when the item is dropped *)
}.

Record bufferItem := mkItem {
  Events : list Event;
  Index : Z;
  Err : option error;
  link : ptr;
  createdAt : Z
}.

(** The [ctx] field of the Go struct is never written nor read. *)
Record eventBuffer := mkBuffer {
  size : Z;
  head : option ptr;
  tail : option ptr;
  maxSize : Z;
  maxItemTTL : Z
}.

(** The writes a writer performs on shared memory. *)
Inductive step :=
| SStoreNext (l : ptr) (item : ptr)   (* l.next.Store(item) *)
| SStoreTail (item : ptr)             (* b.tail.Store(item) *)
| SStoreHead (item : ptr)             (* b.head.Store(item) *)
| SAddSize (d : Z)                    (* atomic.AddInt64(b.size, d) *)
| SCloseCh (l : ptr)                  (* close(l.ch) *)
| SCloseDropped (l : ptr).            (* close(l.droppedCh) *)

Record world := mkWorld {
  items : list bufferItem;
  links : list bufferLink;
  buf : eventBuffer;
  clock : Z                  (* what time.Now() reads *)
}.

Definition set_links (f : list bufferLink -> list bufferLink) (w : world) : world :=
  mkWorld (items w) (f (links w)) (buf w) (clock w).
Definition set_buf (f : eventBuffer -> eventBuffer) (w : world) : world :=
  mkWorld (items w) (links w) (f (buf w)) (clock w).
Definition set_clock (f : Z -> Z) (w : world) : world :=
  mkWorld (items w) (links w) (buf w) (f (clock w)).

Definition with_next (v : option ptr) (lk : bufferLink) : bufferLink :=
  mkLink v (ch lk) (droppedCh lk).
Definition with_ch (lk : bufferLink) : bufferLink :=
  mkLink (next lk) true (droppedCh lk).
Definition with_droppedCh (lk : bufferLink) : bufferLink :=
  mkLink (next lk) (ch lk) true.

Definition with_size (z : Z) (b : eventBuffer) : eventBuffer :=
  mkBuffer z (head b) (tail b) (maxSize b) (maxItemTTL b).
Definition with_head (p : option ptr) (b : eventBuffer) : eventBuffer :=
  mkBuffer (size b) p (tail b) (maxSize b) (maxItemTTL b).
Definition with_tail (p : option ptr) (b : eventBuffer) : eventBuffer :=
  mkBuffer (size b) (head b) p (maxSize b) (maxItemTTL b).

(** ** Results and the writer's monad *)

Inductive res (A : Type) :=
| Ok (a : A)
| Panic (msg : string)
| Blocked          (* a select with no ready case *)
| OutOfFuel.       (* the model's loop bound was reached *)
Arguments Ok {A} a.
Arguments Panic {A} msg.
Arguments Blocked {A}.
Arguments OutOfFuel {A}.

(** A writer action returns a value, the new memory and the writes it
    performed, in order. *)
Definition M (A : Type) : Type := world -> res (A * world * list step).

Definition ret {A} (a : A) : M A := fun w => Ok (a, w, []).
Definition bind {A B} (m : M A) (k : A -> M B) : M B :=
  fun w => match m w with
           | Ok (a, w1, t1) =>
               match k a w1 with
               | Ok (b, w2, t2) => Ok (b, w2, t1 ++ t2)
               | Panic msg => Panic msg
               | Blocked => Blocked
               | OutOfFuel => OutOfFuel
               end
           | Panic msg => Panic msg
           | Blocked => Blocked
           | OutOfFuel => OutOfFuel
           end.
Definition panic {A} (msg : string) : M A := fun _ => Panic msg.
Definition gets {A} (f : world -> A) : M A := fun w => Ok (f w, w, []).

Notation "'do' x <- m ; k" := (bind m (fun x => k))
  (at level 10, x name, m at level 100, k at level 200).
Notation "m ;;; k" := (bind m (fun _ => k))
  (at level 100, k at level 200, right associativity).

Definition nil_deref : string := "invalid memory address or nil pointer dereference".

(** What one write does to memory. Closing a closed channel panics. *)
Definition exec_step (s : step) (w : world) : res world :=
  match s with
  | SStoreNext l item =>
      match links w !! l with
      | Some lk => Ok (set_links (fun ls => <[l := with_next (Some item) lk]> ls) w)
      | None => Panic nil_deref
      end
  | SStoreTail item => Ok (set_buf (with_tail (Some item)) w)
  | SStoreHead item => Ok (set_buf (with_head (Some item)) w)
  | SAddSize d => Ok (set_buf (fun b => with_size (wrap64 (size b + d)) b) w)
  | SCloseCh l =>
      match links w !! l with
      | Some lk =>
          if ch lk then Panic "close of closed channel"
          else Ok (set_links (fun ls => <[l := with_ch lk]> ls) w)
      | None => Panic nil_deref
      end
  | SCloseDropped l =>
      match links w !! l with
      | Some lk =>
          if droppedCh lk then Panic "close of closed channel"
          else Ok (set_links (fun ls => <[l := with_droppedCh lk]> ls) w)
      | None => Panic nil_deref
      end
  end.

(** Perform a write and record it. *)
Definition emit (s : step) : M unit :=
  fun w => match exec_step s w with
           | Ok w' => Ok (tt, w', [s])
           | Panic msg => Panic msg
           | Blocked => Blocked
           | OutOfFuel => OutOfFuel
           end.

(** Replaying a list of writes. *)
Fixpoint replay (ss : list step) (w : world) : res world :=
  match ss with
  | [] => Ok w
  | s :: ss' =>
      match exec_step s w with
      | Ok w' => replay ss' w'
      | Panic msg => Panic msg
      | Blocked => Blocked
      | OutOfFuel => OutOfFuel
      end
  end.

Definition deref_item (p : ptr) : M bufferItem :=
  fun w => match items w !! p with
           | Some it => Ok (it, w, [])
           | None => Panic nil_deref
           end.

Definition deref_link (l : ptr) : M bufferLink :=
  fun w => match links w !! l with
           | Some lk => Ok (lk, w, [])
           | None => Panic nil_deref
           end.

(** ** eventBuffer *)

Definition newBufferItem (index : Z) (events : list Event) : M ptr :=
  fun w =>
    let l := length (links w) in
    let p := length (items w) in
    Ok (p, mkWorld (items w ++ [mkItem events index None l (clock w)])
                   (links w ++ [mkLink None false false])
                   (buf w) (clock w), []).

Definition nil_interface : string :=
  "interface conversion: interface {} is nil, not *bufferItem".

(** [b.head.Load()] asserted to be a bufferItem pointer: a panic when
    nothing was stored. *)
Definition Head : M ptr :=
  fun w => match head (buf w) with
           | Some p => Ok (p, w, [])
           | None => Panic nil_interface
           end.

Definition Tail : M ptr :=
  fun w => match tail (buf w) with
           | Some p => Ok (p, w, [])
           | None => Panic nil_interface
           end.

Definition Len : M Z := gets (fun w => size (buf w)).

(** The [maxItemTTL] argument is not stored: the struct literal sets only
    [maxSize] and [size], so the field keeps its zero value. *)
Definition newEventBuffer (sz : Z) (maxItemTTL : Z) : M unit :=
  let zero := 0 in
  (fun w => Ok (tt, set_buf (fun _ => mkBuffer zero None None sz 0) w, [])) ;;;
  do item <- newBufferItem 0 [] ;
  emit (SStoreHead item) ;;;
  emit (SStoreTail item).

Definition advanceHead : M unit :=
  do old <- Head ;
  do it <- deref_item old ;
  do lk <- deref_link (link it) ;
  let next := next lk in
  emit (SCloseDropped (link it)) ;;;
  match next with
  | Some n => emit (SStoreHead n)
  | None => panic "sync/atomic: store of nil value into Value"
  end ;;;
  emit (SAddSize (-1)).

Definition appendItem (item : ptr) : M unit :=
  do oldTail <- Tail ;
  do it <- deref_item oldTail ;
  emit (SStoreNext (link it) item) ;;;
  emit (SStoreTail item) ;;;
  emit (SAddSize 1) ;;;
  do sz <- gets (fun w => size (buf w)) ;
  do mx <- gets (fun w => maxSize (buf w)) ;
  (if mx <? sz then advanceHead else ret tt) ;;;
  emit (SCloseCh (link it)).

Definition Append (index : Z) (events : list Event) : M unit :=
  do item <- newBufferItem index events ;
  appendItem item.

(** [time.Since(t)] *)
Definition time_Since (t : Z) : M Z := gets (fun w => time_Sub (clock w) t).

(** The loop of [prune]; one unit of fuel per iteration. *)
Fixpoint prune (fuel : nat) : M unit :=
  match fuel with
  | O => fun _ => OutOfFuel
  | S fuel' =>
      do hd <- Head ;
      do n <- Len ;
      if n =? 0 then ret tt
      else
        do it <- deref_item hd ;
        do age <- time_Since (createdAt it) ;
        do ttl <- gets (fun w => maxItemTTL (buf w)) ;
        if ttl <? age then advanceHead ;;; prune fuel'
        else ret tt
  end.

(** Time passing between calls. *)
Definition tick (d : Z) (w : world) : world := set_clock (fun c => c + d) w.

Definition zero_buffer : eventBuffer := mkBuffer 0 None None 0 0.
Definition empty_world (now : Z) : world := mkWorld [] [] zero_buffer now.

(** Running a writer action for its final state. *)
Definition exec {A} (m : M A) (w : world) : res world :=
  match m w with
  | Ok (_, w', _) => Ok w'
  | Panic msg => Panic msg
  | Blocked => Blocked
  | OutOfFuel => OutOfFuel
  end.

(** ** Items reachable from the head *)

(** The link record an item pointer leads to. *)
Definition view (w : world) (p : ptr) : option bufferLink :=
  match items w !! p with
  | Some it => links w !! link it
  | None => None
  end.

(** Follow [link.next] from [p] until it is nil; the items visited. *)
Fixpoint walk (fuel : nat) (w : world) (p : ptr) : option (list ptr) :=
  match fuel with
  | O => None
  | S fuel' =>
      match view w p with
      | None => None
      | Some lk =>
          match next lk with
          | None => Some [p]
          | Some q =>
              match walk fuel' w q with
              | Some l => Some (p :: l)
              | None => None
              end
          end
      end
  end.

(** The number of items reachable from [head], the head included. A walk
    longer than the number of links ever allocated has met a link twice,
    so that number is fuel enough. *)
Definition reachable_from_head (w : world) : option nat :=
  match head (buf w) with
  | Some h =>
      match walk (length (links w)) w h with
      | Some l => Some (length l)
      | None => None
      end
  | None => None
  end.

(** ** Cursor advance: bufferItem.Next *)

Inductive Context :=
| ctx_live                 (* Done() open, Err() nil *)
| ctx_done (e : error).    (* Done() closed, Err() = e *)

Definition ctx_Done (ctx : Context) : bool :=
  match ctx with ctx_live => false | ctx_done _ => true end.
Definition ctx_Err (ctx : Context) : option error :=
  match ctx with ctx_live => None | ctx_done e => Some e end.

Inductive select_case := CaseDone | CaseForceClose | CaseCh.

(** The cases of the first [select] that can proceed, in source order. *)
Definition ready_cases (ctx : Context) (forceClose : bool) (lk : bufferLink) : list select_case :=
  (if ctx_Done ctx then [CaseDone] else []) ++
  (if forceClose then [CaseForceClose] else []) ++
  (if ch lk then [CaseCh] else []).

(** Go takes one ready case by a uniform pseudo-random draw; [rnd] is the
    draw. With no ready case the select blocks. *)
Definition select_ready (rnd : nat) (cases : list select_case) : option select_case :=
  match cases with
  | [] => None
  | _ => cases !! (rnd mod length cases)%nat
  end.

Definition bufferItem_Next (w : world) (ctx : Context) (forceClose : bool)
    (rnd : nat) (i : option ptr) : res (option ptr * option error) :=
  match i with
  | None => Panic nil_deref
  | Some p =>
  match items w !! p with
  | None => Panic nil_deref
  | Some it =>
  match links w !! link it with
  | None => Panic nil_deref
  | Some lk =>
      match select_ready rnd (ready_cases ctx forceClose lk) with
      | None => Blocked
      | Some CaseDone => Ok (None, ctx_Err ctx)
      | Some CaseForceClose => Ok (None, Some (fmt_Errorf "subscription closed"))
      | Some CaseCh =>
          if droppedCh lk then Ok (None, Some (fmt_Errorf "event dropped from buffer"))
          else
            match next lk with
            | None => Ok (None, Some (errors_New "invalid next item"))
            | Some n =>
                match items w !! n with
                | None => Panic nil_deref
                | Some nit =>
                    match Err nit with
                    | Some e => Ok (None, Some e)
                    | None => Ok (Some n, None)
                    end
                end
            end
      end
  end end end.

(** ** Subscription *)

Definition subscriptionStateOpen : Z := 0.
Definition subscriptionStateClosed : Z := 1.

Record Subscription := mkSubscription {
  state : Z;
  req : SubscribeRequest;
  currentItem : option ptr;
  forceClosed : bool
}.

Definition with_currentItem (p : option ptr) (s : Subscription) : Subscription :=
  mkSubscription (state s) (req s) p (forceClosed s).

(** The [for] loop of [Subscription.Next]: one draw of [rnds] per
    iteration (per [select]); running out of draws is [OutOfFuel]. *)
Fixpoint Next_loop (rnds : list nat) (w : world) (ctx : Context) (s : Subscription)
    : res ((list Event * option error) * Subscription) :=
  match rnds with
  | [] => OutOfFuel
  | rnd :: rnds' =>
      match bufferItem_Next w ctx (forceClosed s) rnd (currentItem s) with
      | Ok (next, Some err) =>
          if state s =? subscriptionStateClosed
          then Ok (([], Some ErrSubscriptionClosed), s)
          else Ok (([], Some err), s)
      | Ok (next, None) =>
          let s' := with_currentItem next s in
          match next with
          | None => Panic nil_deref
          | Some n =>
              match items w !! n with
              | None => Panic nil_deref
              | Some nit =>
                  let events := filter (req s') (Events nit) in
                  if (length events =? 0)%nat then Next_loop rnds' w ctx s'
                  else Ok ((events, None), s')
              end
          end
      | Panic msg => Panic msg
      | Blocked => Blocked
      | OutOfFuel => OutOfFuel
      end
  end.

Definition Subscription_Next (rnds : list nat) (w : world) (ctx : Context) (s : Subscription)
    : res ((list Event * option error) * Subscription) :=
  if state s =? subscriptionStateClosed
  then Ok (([], Some ErrSubscriptionClosed), s)
  else Next_loop rnds w ctx s.

(** ** EventPublisher *)

Record EventPublisherCfg := mkCfg {
  EventBufferSize : Z;
  EventBufferTTL : Z
}.

Record changeEvents := mkChangeEvents {
  ce_index : Z;
  ce_events : list Event
}.

(** The publisher owns the buffer of its world. [publishCh] holds the
    messages handed to the channel and not yet taken by [handleUpdates];
    [pruneTick] is never assigned and keeps its zero value. *)
Record EventPublisher := mkPublisher {
  events : world;
  pruneTick : Z;
  publishCh : list changeEvents
}.

(** The two goroutines started by the constructor are not run here: a
    turn of each is [handleUpdates_step] and [periodicPrune_step]. *)
Definition NewEventPublisher (cfg : EventPublisherCfg) (w : world) : res EventPublisher :=
  let ttl := if EventBufferTTL cfg =? 0 then 1 * Hour else EventBufferTTL cfg in
  match newEventBuffer (EventBufferSize cfg) ttl w with
  | Ok (_, w', _) => Ok (mkPublisher w' 0 [])
  | Panic msg => Panic msg
  | Blocked => Blocked
  | OutOfFuel => OutOfFuel
  end.

Definition Publish (index : Z) (evs : list Event) (e : EventPublisher) : EventPublisher :=
  if (0 <? length evs)%nat
  then mkPublisher (events e) (pruneTick e) (publishCh e ++ [mkChangeEvents index evs])
  else e.

Definition sendEvents (update : changeEvents) (e : EventPublisher) : res EventPublisher :=
  match Append (ce_index update) (ce_events update) (events e) with
  | Ok (_, w', _) => Ok (mkPublisher w' (pruneTick e) (publishCh e))
  | Panic msg => Panic msg
  | Blocked => Blocked
  | OutOfFuel => OutOfFuel
  end.

(** One turn of the [handleUpdates] loop with the context live: take a
    message from [publishCh] and send it; block when there is none. *)
Definition handleUpdates_step (e : EventPublisher) : res EventPublisher :=
  match publishCh e with
  | [] => Blocked
  | update :: rest => sendEvents update (mkPublisher (events e) (pruneTick e) rest)
  end.

(** One turn of [periodicPrune] after the timer fired. *)
Definition periodicPrune_step (fuel : nat) (e : EventPublisher) : res EventPublisher :=
  match prune fuel (events e) with
  | Ok (_, w', _) => Ok (mkPublisher w' (pruneTick e) (publishCh e))
  | Panic msg => Panic msg
  | Blocked => Blocked
  | OutOfFuel => OutOfFuel
  end.

(** ** Invariants of the buffer *)

(** [chain w L K]: the items [L], in order, are linked by [next] through
    the links [K]; none is dropped; the last one has no successor and its
    ready channel is open. *)
Inductive chain (w : world) : list ptr -> list ptr -> Prop :=
| chain_last t it lk :
    items w !! t = Some it ->
    links w !! link it = Some lk ->
    next lk = None -> ch lk = false -> droppedCh lk = false ->
    chain w [t] [link it]
| chain_cons p q L K it lk :
    items w !! p = Some it ->
    links w !! link it = Some lk ->
    next lk = Some q -> droppedCh lk = false ->
    chain w (q :: L) K ->
    chain w (p :: q :: L) (link it :: K).

(** A closed ready channel has its [next] set, and [next] is an item. *)
Definition ready_implies_next (w : world) : Prop :=
  forall l lk, links w !! l = Some lk ->
    (ch lk = true -> next lk <> None) /\
    (forall n, next lk = Some n -> is_Some (items w !! n)).

Record wf (w : world) : Prop := mk_wf {
  wf_chain : exists L K,
      chain w L K /\ NoDup K /\
      head (buf w) = L !! 0%nat /\ tail (buf w) = last L /\
      size (buf w) + 1 = Z.of_nat (length L);
  wf_size : size (buf w) <= MaxInt64;
  wf_ready : ready_implies_next w
}.

(** [P] holds now and after every write of [ss], each of which succeeds. *)
Fixpoint always_along (P : world -> Prop) (ss : list step) (w : world) : Prop :=
  P w /\
  match ss with
  | [] => True
  | s :: ss' => exists w', exec_step s w = Ok w' /\ always_along P ss' w'
  end.

(** States a buffer goes through: construction, then any sequence of
    Append, advanceHead and prune calls that return, with time passing. *)
Inductive reachable : world -> Prop :=
| reach_new now sz ttl w :
    MinInt64 <= sz <= MaxInt64 ->
    exec (newEventBuffer sz ttl) (empty_world now) = Ok w ->
    reachable w
| reach_Append w index evs w' :
    reachable w -> exec (Append index evs) w = Ok w' -> reachable w'
| reach_advanceHead w w' :
    reachable w -> exec advanceHead w = Ok w' -> reachable w'
| reach_prune w fuel w' :
    reachable w -> exec (prune fuel) w = Ok w' -> reachable w'
| reach_tick w d :
    reachable w -> 0 <= d -> reachable (tick d w).

(** ** Definitions used to state and prove the properties *)

(** Traces are faithful. *)
Definition sound {A} (m : M A) : Prop :=
  forall w a w' ss, m w = Ok (a, w', ss) -> replay ss w = Ok w'.

Definition step_ok (w : world) (s : step) : Prop :=
  match s with
  | SStoreNext _ x => is_Some (items w !! x)
  | SCloseCh l => exists lk, links w !! l = Some lk /\ next lk <> None
  | _ => True
  end.

(** Running a writer action: value, final memory and writes. *)
Definition run {A} (m : M A) (w : world) (a : A) (w' : world) (ss : list step) : Prop :=
  m w = Ok (a, w', ss).

Definition append_writes (lt new : ptr) (adv : list step) : list step :=
  [SStoreNext lt new; SStoreTail new; SAddSize 1] ++ adv ++ [SCloseCh lt].

Definition allocated (index : Z) (evs : list Event) (w : world) : world :=
  mkWorld (items w ++ [mkItem evs index None (length (links w)) (clock w)])
          (links w ++ [mkLink None false false]) (buf w) (clock w).

(** The memory when [appendItem] reaches its size check. *)
Definition linked (lt : ptr) (lk : bufferLink) (new : ptr) (w1 : world) : world :=
  set_buf (fun b => with_size (wrap64 (size b + 1)) b)
    (set_buf (with_tail (Some new))
       (set_links (fun ls => <[lt := with_next (Some new) lk]> ls) w1)).

(** Writes that neither publish a successor nor signal readiness. *)
Definition quiet (s : step) : Prop :=
  match s with
  | SStoreNext _ _ | SCloseCh _ => False
  | _ => True
  end.

Definition next_set (w : world) (l : ptr) : Prop :=
  exists lk, links w !! l = Some lk /\ next lk <> None.

Definition is_StoreHead (s : step) : bool :=
  match s with SStoreHead _ => true | _ => false end.
Definition head_advances (ss : list step) : nat :=
  length (List.filter is_StoreHead ss).

(** The successor of item [p], if published. *)
Definition next_of (w : world) (p : ptr) : option ptr :=
  match view w p with
  | Some lk => next lk
  | None => None
  end.

Definition sentinel_world (now sz : Z) : world :=
  mkWorld [mkItem [] 0 None 0%nat now] [mkLink None false false]
          (mkBuffer 0 (Some 0%nat) (Some 0%nat) sz 0) now.

(** Where [prune] stops: the buffer is empty or its head is within the TTL. *)
Definition prune_stop (w : world) : Prop :=
  size (buf w) = 0 \/
  exists h it, head (buf w) = Some h /\ items w !! h = Some it /\
    time_Sub (clock w) (createdAt it) <= maxItemTTL (buf w).

(** Every drop recorded in [ss] is of an item of [w] older than the
    [maxItemTTL] field. *)
Definition drops_expired (w : world) (ss : list step) : Prop :=
  Forall (fun s => forall l, s = SCloseDropped l ->
            exists p it, items w !! p = Some it /\ link it = l /\
              maxItemTTL (buf w) < time_Sub (clock w) (createdAt it)) ss.

Definition one_batch_world : world :=
  Eval vm_compute in
    match exec (Append 1 [mkEvent "jobs" "A" 1 0%nat]) (sentinel_world 0 2) with
    | Ok w => w
    | _ => sentinel_world 0 2
    end.

Fixpoint total_hits (req : SubscribeRequest) (es : list Event) : nat :=
  match es with
  | [] => 0%nat
  | e :: es' => (hits req e + total_hits req es')%nat
  end.

Definition req_jobs_X_star : SubscribeRequest :=
  mkSubscribeRequest {[ "jobs" := ["X"; "*"] ]}.
Definition ev_jobs_X : Event := mkEvent "jobs" "X" 1 0%nat.
Definition ev_jobs_Y : Event := mkEvent "jobs" "Y" 1 1%nat.
Definition ev_nodes_N : Event := mkEvent "nodes" "N" 1 2%nat.

Definition errClosedByForce : error := fmt_Errorf "subscription closed".
Definition errDropped : error := fmt_Errorf "event dropped from buffer".

(** Items passed over by successful cursor steps that delivered nothing. *)
Inductive skipped (w : world) (rq : SubscribeRequest) : option ptr -> option ptr -> Prop :=
| skipped_here c : skipped w rq c c
| skipped_step p n nit c :
    next_of w p = Some n ->
    items w !! n = Some nit -> Err nit = None ->
    length (filter rq (Events nit)) = 0%nat ->
    skipped w rq (Some n) c ->
    skipped w rq (Some p) c.

Definition req_jobs_star : SubscribeRequest :=
  mkSubscribeRequest {[ "jobs" := ["*"] ]}.

(** A buffer of capacity 2 holding one batch on a topic nobody of
    [req_jobs_star] listens to. *)
Definition nodes_batch_world : world :=
  Eval vm_compute in
    match exec (Append 1 [mkEvent "nodes" "N" 1 0%nat]) (sentinel_world 0 2) with
    | Ok w => w
    | _ => sentinel_world 0 2
    end.

(** A list whose producer gave up after one batch nobody of
    [req_jobs_star] listens to: the third item carries an error. *)
Definition producer_failed_world : world :=
  mkWorld
    [mkItem [] 0 None 0%nat 0;
     mkItem [mkEvent "nodes" "N" 1 0%nat] 1 None 1%nat 0;
     mkItem [] 2 (Some (errors_New "producer failed")) 2%nat 0]
    [mkLink (Some 1%nat) true false;
     mkLink (Some 2%nat) true false;
     mkLink None false false]
    (mkBuffer 2 (Some 0%nat) (Some 2%nat) 4 0) 0.

Definition sub_at_sentinel : Subscription :=
  mkSubscription subscriptionStateOpen req_jobs_star (Some 0%nat) false.

(** The buffer of a publisher configured with capacity 10 and no TTL
    (so the TTL handed to [newEventBuffer] is the default hour). *)
Definition default_ttl_world : world :=
  Eval vm_compute in
    match NewEventPublisher (mkCfg 10 0) (empty_world 0) with
    | Ok e => events e
    | _ => empty_world 0
    end.

(** Two batches published at time 0. *)
Definition two_batches_world : world :=
  Eval vm_compute in
    match exec (Append 1 [mkEvent "jobs" "A" 1 0%nat] ;;;
                Append 2 [mkEvent "jobs" "B" 2 1%nat]) default_ttl_world with
    | Ok w => w
    | _ => default_ttl_world
    end.

(** ** Reading the list without blocking *)

(** [time.Time{}]: the clock counts nanoseconds from Go's zero time. *)
Definition zero_Time : Z := 0.

(** [i.link.next.Load()], nil when nothing was published after [i]. *)
Definition NextNoBlock (i : ptr) : M (option ptr) :=
  do it <- deref_item i ;
  do lk <- deref_link (link it) ;
  ret (next lk).

(** [&bufferItem{link: i.link}]: a new item with no content on the link
    of [i]. *)
Definition NextLink (i : ptr) : M ptr :=
  do next <- NextNoBlock i ;
  match next with
  | None =>
      do it <- deref_item i ;
      fun w => Ok (length (items w),
                   mkWorld (items w ++ [mkItem [] 0 None (link it) zero_Time])
                           (links w) (buf w) (clock w), [])
  | Some n => ret n
  end.

(** ** Definitions used to state the further properties *)

(** What a write does to the link [l]. *)
Definition step_link (l : ptr) (lk : bufferLink) (s : step) : bufferLink :=
  match s with
  | SStoreNext l' x => if (l' =? l)%nat then with_next (Some x) lk else lk
  | SCloseCh l' => if (l' =? l)%nat then with_ch lk else lk
  | SCloseDropped l' => if (l' =? l)%nat then with_droppedCh lk else lk
  | _ => lk
  end.

(** Writes that touch only the head, the size and a dropped signal. *)
Definition head_only (s : step) : Prop :=
  match s with
  | SCloseDropped _ | SStoreHead _ | SAddSize _ => True
  | _ => False
  end.

(** One call of the single writer that returns. *)
Inductive writer_step : world -> world -> Prop :=
| ws_Append w index evs w' :
    exec (Append index evs) w = Ok w' -> writer_step w w'
| ws_advanceHead w w' :
    exec advanceHead w = Ok w' -> writer_step w w'
| ws_prune w fuel w' :
    exec (prune fuel) w = Ok w' -> writer_step w w'.

(** A link whose [next] is set has its ready channel closed. *)
Definition next_implies_ready (w : world) : Prop :=
  forall l lk, links w !! l = Some lk -> next lk <> None -> ch lk = true.

Definition ev_jobs_A : Event := mkEvent "jobs" "A" 1 0%nat.

(** [one_batch_world] after its head was advanced past the sentinel. *)
Definition dropped_head_world : world :=
  Eval vm_compute in
    match exec advanceHead one_batch_world with
    | Ok w => w
    | _ => one_batch_world
    end.

(** A publisher on a fresh buffer of capacity 2, created at time 0. *)
Definition fresh_publisher : EventPublisher := mkPublisher (sentinel_world 0 2) 0 [].

(** * Lemmas and theorems *)

(** ** Arithmetic *)

Lemma wrap64_id z : MinInt64 <= z <= MaxInt64 -> wrap64 z = z.
Proof.
  unfold wrap64, MinInt64, MaxInt64. intros H.
  rewrite Z.mod_small; lia.
Qed.

Lemma wrap64_range z : MinInt64 <= wrap64 z <= MaxInt64.
Proof.
  unfold wrap64, MinInt64, MaxInt64.
  pose proof (Z.mod_pos_bound (z + 2 ^ 63) (2 ^ 64)). lia.
Qed.

(** ** Chains *)

Lemma chain_length w L K : chain w L K -> length L = length K.
Proof. induction 1; simpl in *; lia. Qed.

Lemma chain_links_valid w L K :
  chain w L K -> forall l, l ∈ K -> is_Some (links w !! l).
Proof.
  induction 1; intros l Hl.
  - apply list_elem_of_singleton in Hl. subst. eauto.
  - apply elem_of_cons in Hl as [-> | Hl]; eauto.
Qed.

Lemma chain_items_valid w L K :
  chain w L K -> forall p, p ∈ L -> is_Some (items w !! p).
Proof.
  induction 1; intros x Hx.
  - apply list_elem_of_singleton in Hx. subst. eauto.
  - apply elem_of_cons in Hx as [-> | Hx]; eauto.
Qed.

Lemma chain_last_inv w L K :
  chain w L K ->
  exists t it lk, last L = Some t /\ last K = Some (link it) /\
    items w !! t = Some it /\ links w !! link it = Some lk /\
    next lk = None /\ ch lk = false /\ droppedCh lk = false.
Proof.
  induction 1.
  - exists t, it, lk. simpl. repeat split; assumption.
  - destruct IHchain as (t & it' & lk' & Ht & HK & ?).
    exists t, it', lk'. split; [|split; [|assumption]].
    + simpl in *. exact Ht.
    + inversion H3; subst; simpl in *; exact HK.
Qed.

Lemma chain_nonempty w L K : chain w L K -> L <> [] /\ K <> [].
Proof. destruct 1; split; discriminate. Qed.

Lemma chain_frame w w' L K :
  chain w L K ->
  (forall p, p ∈ L -> items w' !! p = items w !! p) ->
  (forall l, l ∈ K -> links w' !! l = links w !! l) ->
  chain w' L K.
Proof.
  induction 1; intros Hi Hl.
  - eapply chain_last; eauto.
    + rewrite Hi; [eassumption | apply list_elem_of_singleton; reflexivity].
    + rewrite Hl; [eassumption | apply list_elem_of_singleton; reflexivity].
  - eapply chain_cons; eauto.
    + rewrite Hi; [eassumption | apply elem_of_cons; auto].
    + rewrite Hl; [eassumption | apply elem_of_cons; auto].
    + apply IHchain; intros; [apply Hi | apply Hl]; apply elem_of_cons; auto.
Qed.

Lemma chain_walk w L K :
  chain w L K ->
  forall fuel h, L !! 0%nat = Some h -> (length L <= fuel)%nat -> walk fuel w h = Some L.
Proof.
  induction 1; intros fuel h Hh Hf; simpl in Hh; injection Hh as <-.
  - destruct fuel; [simpl in Hf; lia|]. simpl. unfold view. rewrite H, H0, H1. reflexivity.
  - destruct fuel; [simpl in Hf; lia|]. simpl. unfold view. rewrite H, H0, H1.
    rewrite (IHchain fuel q); [reflexivity | reflexivity | simpl in *; lia].
Qed.

(** ** The recorded writes are the writes performed *)

Lemma replay_app ss1 ss2 w w1 :
  replay ss1 w = Ok w1 -> replay (ss1 ++ ss2) w = replay ss2 w1.
Proof.
  revert w. induction ss1 as [|s ss1 IH]; intros w H; simpl in *.
  - congruence.
  - destruct (exec_step s w); try discriminate. auto.
Qed.

Lemma sound_ret {A} (a : A) : sound (ret a).
Proof. intros w a' w' ss H. injection H as <- <- <-. reflexivity. Qed.

Lemma sound_gets {A} (f : world -> A) : sound (gets f).
Proof. intros w a' w' ss H. injection H as <- <- <-. reflexivity. Qed.

Lemma sound_panic {A} msg : sound (@panic A msg).
Proof. intros w a' w' ss H. discriminate. Qed.

Lemma sound_emit s : sound (emit s).
Proof.
  intros w a w' ss H. unfold emit in H.
  destruct (exec_step s w) eqn:E; try discriminate.
  injection H as <- <- <-. simpl. rewrite E. reflexivity.
Qed.

Lemma sound_bind {A B} (m : M A) (k : A -> M B) :
  sound m -> (forall a, sound (k a)) -> sound (bind m k).
Proof.
  intros Hm Hk w b w' ss H. unfold bind in H.
  destruct (m w) as [[[a w1] t1]| | |] eqn:E1; try discriminate.
  destruct (k a w1) as [[[b' w2] t2]| | |] eqn:E2; try discriminate.
  injection H as <- <- <-.
  rewrite (replay_app _ _ _ _ (Hm _ _ _ _ E1)). eapply Hk; eauto.
Qed.

Lemma sound_Head : sound Head.
Proof. intros w a w' ss H. unfold Head in H. destruct (head (buf w)); try discriminate.
  injection H as <- <- <-. reflexivity. Qed.
Lemma sound_Tail : sound Tail.
Proof. intros w a w' ss H. unfold Tail in H. destruct (tail (buf w)); try discriminate.
  injection H as <- <- <-. reflexivity. Qed.
Lemma sound_deref_item p : sound (deref_item p).
Proof. intros w a w' ss H. unfold deref_item in H. destruct (items w !! p); try discriminate.
  injection H as <- <- <-. reflexivity. Qed.
Lemma sound_deref_link p : sound (deref_link p).
Proof. intros w a w' ss H. unfold deref_link in H. destruct (links w !! p); try discriminate.
  injection H as <- <- <-. reflexivity. Qed.

Create HintDb sound_db.
#[local] Hint Resolve sound_ret sound_gets sound_panic sound_emit sound_Head sound_Tail
  sound_deref_item sound_deref_link : sound_db.

Ltac sound_tac :=
  repeat first
    [ apply sound_bind; [| intros ?]
    | solve [auto with sound_db]
    | match goal with |- sound (match ?x with _ => _ end) => destruct x end
    | match goal with |- sound (if ?x then _ else _) => destruct x end ].

Lemma sound_advanceHead : sound advanceHead.
Proof. unfold advanceHead. sound_tac. Qed.

#[local] Hint Resolve sound_advanceHead : sound_db.

Lemma sound_appendItem item : sound (appendItem item).
Proof. unfold appendItem. sound_tac. Qed.

Lemma sound_prune fuel : sound (prune fuel).
Proof.
  induction fuel as [|fuel IH]; simpl.
  - intros w a w' ss H. discriminate.
  - sound_tac. unfold Len. sound_tac. unfold time_Since. sound_tac.
Qed.

(** Per-step facts *)
(** ** What one write changes *)

Lemma exec_step_items s w w' :
  exec_step s w = Ok w' -> items w' = items w /\ clock w' = clock w.
Proof.
  destruct s; simpl; intros H;
    repeat match type of H with
           | context [match ?x with _ => _ end] => destruct x; try discriminate
           end;
    injection H as <-; auto.
Qed.

(** What a step may change in a link. *)
Lemma exec_step_link s w w' l lk :
  exec_step s w = Ok w' -> links w !! l = Some lk ->
  exists lk', links w' !! l = Some lk' /\
    (next lk' = next lk \/ exists x, s = SStoreNext l x /\ next lk' = Some x) /\
    (ch lk' = ch lk \/ s = SCloseCh l /\ ch lk = false /\ ch lk' = true) /\
    (droppedCh lk' = droppedCh lk \/ s = SCloseDropped l /\ droppedCh lk = false).
Proof.
  intros H Hl.
  destruct s; simpl in H;
    try (injection H as <-; simpl; exists lk; split; [assumption | auto]).
  - destruct (links w !! l0) as [lk0|] eqn:E; try discriminate.
    injection H as <-. simpl.
    destruct (decide (l0 = l)) as [->|Hne].
    + rewrite list_lookup_insert_eq by (eapply lookup_lt_Some; eauto).
      eexists; split; [reflexivity|]. simpl.
      assert (lk0 = lk) by congruence; subst. split; [right; eauto | auto].
    + rewrite list_lookup_insert_ne by assumption. exists lk. auto.
  - destruct (links w !! l0) as [lk0|] eqn:E; try discriminate.
    destruct (ch lk0) eqn:Ec; try discriminate.
    injection H as <-. simpl.
    destruct (decide (l0 = l)) as [->|Hne].
    + rewrite list_lookup_insert_eq by (eapply lookup_lt_Some; eauto).
      eexists; split; [reflexivity|]. simpl.
      assert (lk0 = lk) by congruence; subst. split; [auto | split; auto].
    + rewrite list_lookup_insert_ne by assumption. exists lk. auto.
  - destruct (links w !! l0) as [lk0|] eqn:E; try discriminate.
    destruct (droppedCh lk0) eqn:Ec; try discriminate.
    injection H as <-. simpl.
    destruct (decide (l0 = l)) as [->|Hne].
    + rewrite list_lookup_insert_eq by (eapply lookup_lt_Some; eauto).
      eexists; split; [reflexivity|]. simpl.
      assert (lk0 = lk) by congruence; subst. split; [auto | split; auto].
    + rewrite list_lookup_insert_ne by assumption. exists lk. auto.
Qed.

Lemma exec_step_link_inv s w w' l lk' :
  exec_step s w = Ok w' -> links w' !! l = Some lk' -> is_Some (links w !! l).
Proof.
  intros H Hl. apply lookup_lt_is_Some. apply lookup_lt_Some in Hl.
  destruct s; simpl in H;
    repeat match type of H with
           | context [match ?x with _ => _ end] => destruct x; try discriminate
           end;
    injection H as <-; simpl in Hl; rewrite ?length_insert in Hl; assumption.
Qed.

Lemma ready_step s w w' :
  ready_implies_next w -> step_ok w s -> exec_step s w = Ok w' ->
  ready_implies_next w'.
Proof.
  intros Hr Hok H l lk' Hl'.
  destruct (exec_step_link_inv _ _ _ _ _ H Hl') as [lk Hl].
  destruct (exec_step_link _ _ _ _ _ H Hl) as (lk2 & Hl2 & Hn & Hc & _).
  assert (lk2 = lk') by congruence; subst lk2.
  destruct (Hr _ _ Hl) as [Hr1 Hr2].
  destruct (exec_step_items _ _ _ H) as [Hi _]. rewrite Hi.
  split.
  - intros Hch. destruct Hn as [Hn | (x & -> & Hn)]; [|rewrite Hn; discriminate].
    rewrite Hn. destruct Hc as [Hc | (-> & _ & _)].
    + apply Hr1. congruence.
    + simpl in Hok. destruct Hok as (lk0 & E0 & Hnn). congruence.
  - intros n Hnx. destruct Hn as [Hn | (x & -> & Hn)].
    + apply Hr2. congruence.
    + simpl in Hok. congruence.
Qed.

Lemma chain_update w w' L K :
  chain w L K -> items w' = items w ->
  (forall l lk, l ∈ K -> links w !! l = Some lk ->
     exists lk', links w' !! l = Some lk' /\ next lk' = next lk /\
       droppedCh lk' = droppedCh lk /\ (last K = Some l -> ch lk' = ch lk)) ->
  chain w' L K.
Proof.
  induction 1; intros Hi Hl.
  - destruct (Hl (link it) lk) as (lk' & E & Hn & Hd & Hc);
      [apply list_elem_of_singleton; reflexivity | assumption |].
    eapply chain_last; eauto; try congruence.
  - destruct (Hl (link it) lk) as (lk' & E & Hn & Hd & Hc);
      [apply elem_of_cons; auto | assumption |].
    eapply chain_cons; eauto; try congruence.
    apply IHchain; auto.
    intros l lk0 Hin E0.
    destruct (Hl l lk0) as (lk0' & ? & ? & ? & Hc0);
      [apply elem_of_cons; auto | assumption |].
    exists lk0'. repeat split; auto.
    intros HL. apply Hc0.
    destruct (chain_nonempty _ _ _ H3) as [_ HK].
    destruct K; [congruence|]. exact HL.
Qed.

Lemma chain_snoc w w' L K lt lk x xit xlk :
  chain w L K -> NoDup K -> last K = Some lt ->
  links w !! lt = Some lk ->
  items w' = items w ->
  links w' = <[lt := with_next (Some x) lk]> (links w) ->
  items w !! x = Some xit -> links w !! link xit = Some xlk ->
  next xlk = None -> ch xlk = false -> droppedCh xlk = false ->
  link xit ∉ K ->
  chain w' (L ++ [x]) (K ++ [link xit]).
Proof.
  intros Hc. revert lt lk.
  induction Hc; intros lt lk0 Hnd Hlast Hlt Hi Hl Hx Hxl Hxn Hxc Hxd Hfresh.
  - simpl in Hlast. injection Hlast as <-.
    assert (lk0 = lk) by congruence; subst lk0.
    simpl. eapply chain_cons with (lk := with_next (Some x) lk).
    + rewrite Hi. eassumption.
    + rewrite Hl. apply list_lookup_insert_eq. eapply lookup_lt_Some; eauto.
    + reflexivity.
    + simpl. assumption.
    + eapply chain_last; eauto.
      * rewrite Hi. eassumption.
      * rewrite Hl. rewrite list_lookup_insert_ne; [eassumption|].
        intros E. apply Hfresh. rewrite <- E. apply list_elem_of_singleton. reflexivity.
  - destruct (chain_nonempty _ _ _ Hc) as [_ HK].
    assert (HlastK : last K = Some lt) by (destruct K; [congruence | exact Hlast]).
    apply NoDup_cons in Hnd as [Hnin Hnd].
    assert (Hne : lt <> link it).
    { intros E. apply Hnin. rewrite <- E. eapply last_Some_elem_of; eauto. }
    simpl. eapply chain_cons; eauto.
    + rewrite Hi. eassumption.
    + rewrite Hl. rewrite list_lookup_insert_ne; eassumption.
    + eapply (IHHc lt lk0); eauto.
      intros Hin. apply Hfresh. apply elem_of_cons. auto.
Qed.

(** ** Running advanceHead and Append on a chain *)

Lemma run_bind {A B} (m : M A) (k : A -> M B) w a w1 t1 b w2 t2 :
  run m w a w1 t1 -> run (k a) w1 b w2 t2 -> run (bind m k) w b w2 (t1 ++ t2).
Proof. unfold run, bind. intros -> ->. reflexivity. Qed.

Lemma run_ret {A} (a : A) w : run (ret a) w a w [].
Proof. reflexivity. Qed.

Lemma run_gets {A} (f : world -> A) w : run (gets f) w (f w) w [].
Proof. reflexivity. Qed.

Lemma run_emit s w w' : exec_step s w = Ok w' -> run (emit s) w tt w' [s].
Proof. unfold run, emit. intros ->. reflexivity. Qed.

Lemma run_Head w p : head (buf w) = Some p -> run Head w p w [].
Proof. unfold run, Head. intros ->. reflexivity. Qed.

Lemma run_Tail w p : tail (buf w) = Some p -> run Tail w p w [].
Proof. unfold run, Tail. intros ->. reflexivity. Qed.

Lemma run_deref_item w p it : items w !! p = Some it -> run (deref_item p) w it w [].
Proof. unfold run, deref_item. intros ->. reflexivity. Qed.

Lemma run_deref_link w l lk : links w !! l = Some lk -> run (deref_link l) w lk w [].
Proof. unfold run, deref_link. intros ->. reflexivity. Qed.

Lemma advanceHead_chain w p q L k K :
  chain w (p :: q :: L) (k :: K) -> NoDup (k :: K) -> head (buf w) = Some p ->
  exists w', run advanceHead w tt w' [SCloseDropped k; SStoreHead q; SAddSize (-1)] /\
    chain w' (q :: L) K /\
    items w' = items w /\ clock w' = clock w /\
    buf w' = mkBuffer (wrap64 (size (buf w) + -1)) (Some q) (tail (buf w))
                      (maxSize (buf w)) (maxItemTTL (buf w)) /\
    (forall l lk, links w !! l = Some lk ->
       exists lk', links w' !! l = Some lk' /\ next lk' = next lk /\ ch lk' = ch lk).
Proof.
  intros Hc Hnd Hh.
  inversion Hc as [| ? ? ? ? it lk Hit Hlk Hn Hd Hrest]; subst.
  exists (mkWorld (items w) (<[link it := with_droppedCh lk]> (links w))
            (mkBuffer (wrap64 (size (buf w) + -1)) (Some q) (tail (buf w))
                      (maxSize (buf w)) (maxItemTTL (buf w))) (clock w)).
  split.
  { unfold advanceHead.
    eapply (run_bind _ _ _ _ _ []); [apply run_Head; eassumption|].
    eapply (run_bind _ _ _ _ _ []); [apply run_deref_item; eassumption|].
    eapply (run_bind _ _ _ _ _ []); [apply run_deref_link; eassumption|].
    eapply (run_bind _ _ _ _ _ [_]).
    { apply run_emit. simpl. rewrite Hlk, Hd. reflexivity. }
    rewrite Hn.
    eapply (run_bind _ _ _ _ _ [_]); [apply run_emit; reflexivity|].
    apply run_emit. reflexivity. }
  apply NoDup_cons in Hnd as [Hnin Hnd].
  split; [|split; [reflexivity|split; [reflexivity|split; [reflexivity|]]]].
  - eapply chain_update; [eassumption | reflexivity |].
    intros l lk0 Hin E. simpl.
    rewrite list_lookup_insert_ne by (intros E'; apply Hnin; rewrite E'; exact Hin).
    exists lk0. auto.
  - intros l lk0 E. simpl.
    destruct (decide (link it = l)) as [<-|Hne].
    + rewrite list_lookup_insert_eq by (eapply lookup_lt_Some; eauto).
      eexists; split; [reflexivity|]. assert (lk0 = lk) by congruence. subst. auto.
    + rewrite list_lookup_insert_ne by assumption. eauto.
Qed.

Lemma advanceHead_empty w t k :
  chain w [t] [k] -> head (buf w) = Some t ->
  advanceHead w = Panic "sync/atomic: store of nil value into Value".
Proof.
  intros Hc Hh. inversion Hc as [? it lk Hit Hlk Hn Hch Hd |]; subst.
  unfold advanceHead, bind, Head, deref_item, deref_link, emit.
  rewrite Hh, Hit, Hlk, Hn. simpl. rewrite Hlk, Hd. reflexivity.
Qed.

Lemma chain_allocated index evs w L K :
  chain w L K -> chain (allocated index evs w) L K.
Proof.
  intros Hc. eapply chain_frame; [eassumption | |]; intros x Hx; simpl.
  - destruct (chain_items_valid _ _ _ Hc _ Hx) as [y Hy].
    rewrite Hy. apply lookup_app_l_Some. assumption.
  - destruct (chain_links_valid _ _ _ Hc _ Hx) as [y Hy].
    rewrite Hy. apply lookup_app_l_Some. assumption.
Qed.

Lemma chain_close_ch w L K l lk :
  chain w L K -> links w !! l = Some lk -> last K <> Some l ->
  chain (set_links (fun ls => <[l := with_ch lk]> ls) w) L K.
Proof.
  intros Hc Hl Hlast. eapply chain_update; [eassumption | reflexivity |].
  intros l0 lk0 Hin E. simpl.
  destruct (decide (l = l0)) as [<-|Hne].
  - rewrite list_lookup_insert_eq by (eapply lookup_lt_Some; eauto).
    eexists; split; [reflexivity|]. assert (lk0 = lk) by congruence. subst.
    repeat split; auto. intros; contradiction.
  - rewrite list_lookup_insert_ne by assumption. eauto.
Qed.

Lemma Append_prefix w index evs t it lk adv w5 w' :
  tail (buf w) = Some t -> items w !! t = Some it -> links w !! link it = Some lk ->
  run (if maxSize (buf w) <? wrap64 (size (buf w) + 1) then advanceHead else ret tt)
      (linked (link it) lk (length (items w)) (allocated index evs w)) tt w5 adv ->
  exec_step (SCloseCh (link it)) w5 = Ok w' ->
  run (Append index evs) w tt w' (append_writes (link it) (length (items w)) adv).
Proof.
  intros Ht Hit Hlk Hadv Hclose.
  change (append_writes (link it) (length (items w)) adv)
    with ([] ++ [] ++ [] ++ [SStoreNext (link it) (length (items w))] ++
          [SStoreTail (length (items w))] ++ [SAddSize 1] ++ [] ++ [] ++
          adv ++ [SCloseCh (link it)]).
  unfold Append, appendItem.
  eapply run_bind; [reflexivity|].
  eapply run_bind; [apply run_Tail; exact Ht|].
  eapply run_bind; [apply run_deref_item; apply lookup_app_l_Some; exact Hit|].
  eapply run_bind.
  { apply run_emit. simpl. rewrite (lookup_app_l_Some _ _ _ _ Hlk). reflexivity. }
  eapply run_bind; [apply run_emit; reflexivity|].
  eapply run_bind; [apply run_emit; reflexivity|].
  eapply run_bind; [apply run_gets|].
  eapply run_bind; [apply run_gets|].
  eapply run_bind; [exact Hadv|].
  apply run_emit. exact Hclose.
Qed.

Lemma Append_run w index evs L K :
  chain w L K -> NoDup K ->
  head (buf w) = L !! 0%nat -> tail (buf w) = last L ->
  exists t it w' adv Lc Kc,
    last L = Some t /\ items w !! t = Some it /\
    run (Append index evs) w tt w' (append_writes (link it) (length (items w)) adv) /\
    chain w' Lc Kc /\ NoDup Kc /\
    head (buf w') = Lc !! 0%nat /\ tail (buf w') = last Lc /\
    maxSize (buf w') = maxSize (buf w) /\
    maxItemTTL (buf w') = maxItemTTL (buf w) /\
    items w' = items (allocated index evs w) /\ clock w' = clock w /\
    let sz1 := wrap64 (size (buf w) + 1) in
    ((maxSize (buf w) <? sz1) = false /\ adv = [] /\ Lc = L ++ [length (items w)] /\
       size (buf w') = sz1
     \/
     (maxSize (buf w) <? sz1) = true /\
       exists h ih q, head (buf w) = Some h /\ items w !! h = Some ih /\
         adv = [SCloseDropped (link ih); SStoreHead q; SAddSize (-1)] /\
         L ++ [length (items w)] = h :: Lc /\ Lc !! 0%nat = Some q /\
         size (buf w') = wrap64 (sz1 + -1)).
Proof.
  intros Hc Hnd Hh Ht.
  destruct (chain_last_inv _ _ _ Hc) as (t & it & lk & HLt & HKt & Hit & Hlk & Hn & Hch & Hd).
  pose proof (chain_allocated index evs w L K Hc) as Hc1.
  set (new := length (items w)). set (lnew := length (links w)).
  set (nit := mkItem evs index None lnew (clock w)).
  set (w1 := allocated index evs w) in *.
  assert (Hit1 : items w1 !! t = Some it) by (apply lookup_app_l_Some; assumption).
  assert (Hlk1 : links w1 !! link it = Some lk) by (apply lookup_app_l_Some; assumption).
  set (w2 := set_links (fun ls => <[link it := with_next (Some new) lk]> ls) w1).
  set (w3 := set_buf (with_tail (Some new)) w2).
  set (w4 := set_buf (fun b => with_size (wrap64 (size b + 1)) b) w3).
  assert (Hfresh : lnew ∉ K).
  { intros Hin. destruct (chain_links_valid _ _ _ Hc _ Hin) as [y Hy].
    apply lookup_lt_Some in Hy. unfold lnew in Hy. lia. }
  assert (Hc4 : chain w4 (L ++ [new]) (K ++ [lnew])).
  { eapply (chain_snoc w1 w4 L K (link it) lk new nit (mkLink None false false)); eauto.
    - simpl. unfold new. rewrite lookup_app_r by lia. rewrite Nat.sub_diag. reflexivity.
    - simpl. unfold lnew. rewrite lookup_app_r by lia. rewrite Nat.sub_diag. reflexivity. }
  assert (Hnd4 : NoDup (K ++ [lnew])).
  { apply NoDup_app. split; [assumption|]. split; [|apply NoDup_singleton].
    intros x Hx Hx'. apply list_elem_of_singleton in Hx'. subst. contradiction. }
  assert (Hne : lnew <> link it).
  { intros E. apply Hfresh. rewrite E. eapply last_Some_elem_of; eauto. }
  assert (Hlk4 : links w4 !! link it = Some (with_next (Some new) lk)).
  { simpl. apply list_lookup_insert_eq. apply lookup_lt_Some in Hlk1. exact Hlk1. }
  exists t, it.
  destruct (maxSize (buf w) <? wrap64 (size (buf w) + 1)) eqn:Hcmp.
  - (* the head is advanced *)
    destruct L as [|h L0]; [destruct (chain_nonempty _ _ _ Hc) as [? _]; congruence|].
    destruct K as [|kh K0]; [destruct (chain_nonempty _ _ _ Hc) as [_ ?]; congruence|].
    assert (Hih : exists ih, items w !! h = Some ih /\ kh = link ih).
    { inversion Hc; subst; eauto. }
    destruct Hih as (ih & Hih & ->).
    simpl in Hc4, Hnd4.
    destruct (L0 ++ [new]) as [|q L'] eqn:EL.
    { destruct L0; discriminate. }
    destruct (advanceHead_chain w4 h q L' (link ih) (K0 ++ [lnew]) Hc4 Hnd4)
      as (w5 & Hrun5 & Hc5 & Hi5 & Hk5 & Hb5 & Hl5).
    { simpl. exact Hh. }
    destruct (Hl5 _ _ Hlk4) as (lk5 & Hlk5 & Hn5 & Hch5).
    simpl in Hn5, Hch5.
    exists (set_links (fun ls => <[link it := with_ch lk5]> ls) w5),
      [SCloseDropped (link ih); SStoreHead q; SAddSize (-1)], (q :: L'), (K0 ++ [lnew]).
    split; [exact HLt|]. split; [exact Hit|].
    split.
    { apply (Append_prefix w index evs t it lk _ w5);
        [rewrite Ht; exact HLt | exact Hit | exact Hlk | rewrite Hcmp; exact Hrun5 |].
      simpl. rewrite Hlk5. rewrite Hch5, Hch. reflexivity. }
    split.
    { apply chain_close_ch; auto. rewrite last_snoc. congruence. }
    split; [apply NoDup_cons in Hnd4; tauto|].
    simpl. rewrite Hb5, Hi5, Hk5. simpl.
    split; [reflexivity|].
    split.
    { change (Some new = last (q :: L')). rewrite <- EL. rewrite last_snoc. reflexivity. }
    split; [reflexivity|]. split; [reflexivity|]. split; [reflexivity|].
    split; [reflexivity|].
    right. split; [exact Hcmp|].
    exists h, ih, q. repeat split; auto.
    simpl. rewrite EL. reflexivity.
  - (* the head stays *)
    exists (set_links (fun ls => <[link it := with_ch (with_next (Some new) lk)]> ls) w4),
      [], (L ++ [new]), (K ++ [lnew]).
    split; [exact HLt|]. split; [exact Hit|].
    split.
    { apply (Append_prefix w index evs t it lk _ w4);
        [rewrite Ht; exact HLt | exact Hit | exact Hlk | rewrite Hcmp; apply run_ret |].
      simpl. rewrite list_lookup_insert_eq.
      + simpl. rewrite Hch. reflexivity.
      + rewrite length_app. apply lookup_lt_Some in Hlk. lia. }
    split.
    { apply chain_close_ch; auto. rewrite last_snoc. congruence. }
    split; [assumption|].
    simpl.
    split.
    { rewrite Hh. destruct L; [destruct (chain_nonempty _ _ _ Hc) as [? _]; congruence|].
      reflexivity. }
    split; [rewrite last_snoc; reflexivity|].
    split; [reflexivity|]. split; [reflexivity|]. split; [reflexivity|].
    split; [reflexivity|].
    left. repeat split; auto.
Qed.

(** ** Readiness implies a successor, along the writes *)

Lemma quiet_step_ok w s : quiet s -> step_ok w s.
Proof. destruct s; simpl; tauto. Qed.

Lemma next_set_step s w w' l :
  exec_step s w = Ok w' -> next_set w l -> next_set w' l.
Proof.
  intros H (lk & Hl & Hn).
  destruct (exec_step_link _ _ _ _ _ H Hl) as (lk' & Hl' & Hnx & _).
  exists lk'. split; [assumption|].
  destruct Hnx as [E | (x & _ & E)]; rewrite E; [assumption | discriminate].
Qed.

Lemma ready_allocated index evs w :
  ready_implies_next w -> ready_implies_next (allocated index evs w).
Proof.
  intros Hr l lk Hl. simpl in *.
  apply lookup_app_Some in Hl as [Hl | [_ Hl]].
  - destruct (Hr _ _ Hl) as [H1 H2]. split; [assumption|].
    intros n Hn. destruct (H2 n Hn) as [x Hx]. exists x.
    apply lookup_app_l_Some. assumption.
  - apply list_lookup_singleton_Some in Hl as [_ <-]. simpl.
    split; intros; discriminate.
Qed.

Lemma ready_close l :
  forall mid w w',
  ready_implies_next w -> next_set w l -> Forall quiet mid ->
  replay (mid ++ [SCloseCh l]) w = Ok w' ->
  always_along ready_implies_next (mid ++ [SCloseCh l]) w.
Proof.
  induction mid as [|s mid IH]; intros w w' Hr Hn Hq Hrep; cbn [replay always_along app] in *.
  - destruct (exec_step (SCloseCh l) w) as [w1| | |] eqn:E; try discriminate.
    split; [assumption|]. exists w1. split; [reflexivity|].
    split; [|exact I]. apply (ready_step (SCloseCh l) w w1 Hr); [exact Hn | exact E].
  - destruct (exec_step s w) as [w1| | |] eqn:E; try discriminate.
    inversion Hq as [|? ? Hqs Hqm]; subst.
    split; [assumption|]. exists w1. split; [reflexivity|].
    eapply IH; eauto.
    + apply (ready_step s w w1 Hr); [apply quiet_step_ok; assumption | exact E].
    + eapply next_set_step; eauto.
Qed.

Lemma always_along_last P ss w w' :
  always_along P ss w -> replay ss w = Ok w' -> P w'.
Proof.
  revert w. induction ss as [|s ss IH]; intros w Ha Hr; cbn [replay always_along app] in *.
  - injection Hr as <-. tauto.
  - destruct Ha as [_ (w1 & E & Ha)]. rewrite E in Hr. eauto.
Qed.

Lemma ready_append_writes w1 w' lt new adv :
  ready_implies_next w1 -> is_Some (items w1 !! new) -> is_Some (links w1 !! lt) ->
  Forall quiet adv ->
  replay (append_writes lt new adv) w1 = Ok w' ->
  always_along ready_implies_next (append_writes lt new adv) w1.
Proof.
  intros Hr Hnew [lk Hlt] Hq Hrep.
  unfold append_writes in *.
  change ([SStoreNext lt new; SStoreTail new; SAddSize 1] ++ adv ++ [SCloseCh lt])
    with (SStoreNext lt new :: (SStoreTail new :: SAddSize 1 :: adv) ++ [SCloseCh lt]) in *.
  remember (SStoreTail new :: SAddSize 1 :: adv) as mid.
  cbn [replay always_along app] in Hrep |- *.
  destruct (exec_step (SStoreNext lt new) w1) as [w2| | |] eqn:E; try discriminate.
  split; [assumption|]. exists w2. split; [reflexivity|].
  eapply ready_close; eauto.
  - apply (ready_step (SStoreNext lt new) w1 w2 Hr); [exact Hnew | exact E].
  - simpl in E. rewrite Hlt in E. injection E as <-. simpl.
    eexists. split; [apply list_lookup_insert_eq; eapply lookup_lt_Some; eauto|].
    simpl. discriminate.
  - subst mid. repeat constructor. assumption.
Qed.

Lemma ready_quiet ss :
  forall w w', ready_implies_next w -> Forall quiet ss -> replay ss w = Ok w' ->
  ready_implies_next w'.
Proof.
  induction ss as [|s ss IH]; intros w w' Hr Hq Hrep; cbn [replay always_along app] in *.
  - injection Hrep as <-. assumption.
  - destruct (exec_step s w) as [w1| | |] eqn:E; try discriminate.
    inversion Hq; subst. apply (IH w1 w'); [|assumption|assumption].
    apply (ready_step s w w1 Hr); [apply quiet_step_ok; assumption | exact E].
Qed.

Lemma replay_links_length ss :
  forall w w', replay ss w = Ok w' -> length (links w') = length (links w).
Proof.
  induction ss as [|s ss IH]; intros w w' Hrep; cbn [replay always_along app] in *.
  - injection Hrep as <-. reflexivity.
  - destruct (exec_step s w) as [w1| | |] eqn:E; try discriminate.
    rewrite (IH _ _ Hrep).
    destruct s; simpl in E;
      repeat match type of E with
             | context [match ?x with _ => _ end] => destruct x; try discriminate
             end;
      injection E as <-; simpl; rewrite ?length_insert; reflexivity.
Qed.

Lemma NoDup_bounded_length (K : list nat) (n : nat) :
  NoDup K -> (forall l, l ∈ K -> (l < n)%nat) -> (length K <= n)%nat.
Proof.
  intros Hnd Hb.
  rewrite <- (List.length_seq n 0).
  apply NoDup_incl_length; [apply NoDup_ListNoDup; assumption|].
  intros x Hx. apply in_seq. apply list_elem_of_In in Hx. specialize (Hb x Hx). lia.
Qed.

Lemma chain_bounded w L K :
  chain w L K -> NoDup K -> (length L <= length (links w))%nat.
Proof.
  intros Hc Hnd. rewrite (chain_length _ _ _ Hc).
  apply NoDup_bounded_length; [assumption|].
  intros l Hl. apply lookup_lt_is_Some. eapply chain_links_valid; eauto.
Qed.

(** ** Well-formedness is kept *)

Lemma exec_run {A} (m : M A) w w' :
  exec m w = Ok w' <-> exists a ss, run m w a w' ss.
Proof.
  unfold exec, run. split.
  - destruct (m w) as [[[a w1] ss]| | |]; try discriminate.
    intros H. injection H as <-. eauto.
  - intros (a & ss & ->). reflexivity.
Qed.

Lemma Append_replay index evs w w' ss :
  run (Append index evs) w tt w' ss -> replay ss (allocated index evs w) = Ok w'.
Proof.
  intros H. unfold run, Append, bind in H.
  change (newBufferItem index evs w)
    with (@Ok (ptr * world * list step) (length (items w), allocated index evs w, [])) in H.
  cbv beta iota in H.
  destruct (appendItem _ _) as [[[[] w1] t1]| | |] eqn:E; try discriminate.
  injection H as <- <-. simpl. eapply sound_appendItem. exact E.
Qed.

Lemma wf_newEventBuffer now sz ttl w :
  exec (newEventBuffer sz ttl) (empty_world now) = Ok w -> wf w.
Proof.
  intros H. cbv in H. injection H as <-.
  constructor.
  - exists [0%nat], [0%nat]. simpl. repeat split; try reflexivity.
    + eapply (chain_last _ 0%nat (mkItem [] 0 None 0%nat now) (mkLink None false false));
        reflexivity.
    + apply NoDup_singleton.
  - simpl. unfold MaxInt64. lia.
  - intros l lk Hl. simpl in Hl. destruct l; [|discriminate].
    injection Hl as <-. simpl. split; intros; discriminate.
Qed.

Lemma wf_tick d w : wf w -> wf (tick d w).
Proof.
  intros [ (L & K & Hc & Hnd & Hh & Ht & Hs) Hm Hr].
  constructor; [|exact Hm|exact Hr].
  exists L, K. repeat split; auto.
  eapply chain_frame; eauto.
Qed.

Lemma wf_size_nonneg w : wf w -> 0 <= size (buf w).
Proof.
  intros [ (L & K & Hc & Hnd & Hh & Ht & Hs) Hm Hr].
  destruct (chain_nonempty _ _ _ Hc) as [HL _].
  destruct L; [congruence|]. simpl in Hs. lia.
Qed.

Lemma wf_Append w index evs w' ss :
  wf w -> size (buf w) < MaxInt64 ->
  run (Append index evs) w tt w' ss -> wf w'.
Proof.
  intros Hwf Hlt Hrun.
  pose proof (wf_size_nonneg _ Hwf) as H0.
  destruct Hwf as [ (L & K & Hc & Hnd & Hh & Ht & Hs) Hm Hr].
  destruct (Append_run w index evs L K Hc Hnd Hh Ht)
    as (t & it & w2 & adv & Lc & Kc & HLt & Hit & Hrun2 & Hc2 & Hnd2 & Hh2 & Ht2 &
        Hmx & Httl & Hi2 & Hk2 & Hcase).
  unfold run in Hrun, Hrun2. rewrite Hrun in Hrun2. injection Hrun2 as <- ->.
  assert (Hw : wrap64 (size (buf w) + 1) = size (buf w) + 1).
  { apply wrap64_id. unfold MinInt64, MaxInt64 in *. lia. }
  assert (Hadv : Forall quiet adv).
  { destruct Hcase as [(_ & -> & _) | (_ & h & ih & q & _ & _ & -> & _)];
      repeat constructor. }
  pose proof (Append_replay _ _ _ _ _ Hrun) as Hrep.
  assert (Hal : always_along ready_implies_next
                  (append_writes (link it) (length (items w)) adv) (allocated index evs w)).
  { apply (ready_append_writes _ w'); auto.
    - apply ready_allocated. assumption.
    - simpl. rewrite lookup_app_r by lia. rewrite Nat.sub_diag. eauto.
    - destruct (chain_last_inv _ _ _ Hc) as (t' & it' & lk & HLt' & _ & Hit' & Hlk & _).
      assert (t' = t) by congruence. subst t'.
      assert (it' = it) by congruence. subst it'.
      exists lk. apply lookup_app_l_Some. assumption. }
  constructor.
  - exists Lc, Kc. repeat split; auto.
    simpl in Hcase. rewrite Hw in Hcase.
    destruct Hcase as [(_ & _ & -> & ->) | (_ & h & ih & q & _ & _ & _ & HL & _ & ->)].
    + rewrite length_app. simpl. lia.
    + apply (f_equal (@length _)) in HL. rewrite length_app in HL. simpl in HL.
      replace (size (buf w) + 1 + -1) with (size (buf w)) by lia.
      rewrite wrap64_id by (unfold MinInt64, MaxInt64 in *; lia).
      lia.
  - simpl in Hcase.
    destruct Hcase as [(_ & _ & _ & ->) | (_ & h & ih & q & _ & _ & _ & _ & _ & ->)];
      apply wrap64_range.
  - eapply always_along_last; eauto.
Qed.

Lemma wf_advanceHead w w' ss :
  wf w -> run advanceHead w tt w' ss -> wf w'.
Proof.
  intros Hwf Hrun.
  destruct Hwf as [ (L & K & Hc & Hnd & Hh & Ht & Hs) Hm Hr].
  destruct Hc as [t it lk Hit Hlk Hn Hch Hd | p q L K it lk Hit Hlk Hn Hd Hrest].
  - exfalso. unfold run in Hrun.
    rewrite (advanceHead_empty w t (link it)) in Hrun; [discriminate | | exact Hh].
    eapply chain_last; eauto.
  - assert (Hc : chain w (p :: q :: L) (link it :: K)) by (eapply chain_cons; eauto).
    destruct (advanceHead_chain w p q L (link it) K Hc Hnd Hh)
      as (w2 & Hrun2 & Hc2 & Hi2 & Hk2 & Hb2 & Hl2).
    unfold run in Hrun, Hrun2. rewrite Hrun in Hrun2. injection Hrun2 as <- ->.
    assert (Hw : wrap64 (size (buf w) + -1) = size (buf w) - 1).
    { simpl in Hs. apply wrap64_id. unfold MinInt64, MaxInt64 in *. lia. }
    constructor.
    + exists (q :: L), K. rewrite Hb2. simpl.
      split; [exact Hc2|]. split; [apply NoDup_cons in Hnd; tauto|].
      split; [reflexivity|]. split; [exact Ht|].
      rewrite Hw. simpl in Hs. lia.
    + rewrite Hb2. simpl. rewrite Hw. lia.
    + apply sound_advanceHead in Hrun.
      refine (ready_quiet _ w w' Hr _ Hrun).
      repeat constructor.
Qed.

Lemma prune_S fuel w :
  prune (S fuel) w =
  match head (buf w) with
  | None => Panic nil_interface
  | Some h =>
      if size (buf w) =? 0 then Ok (tt, w, [])
      else
        match items w !! h with
        | None => Panic nil_deref
        | Some it =>
            if maxItemTTL (buf w) <? time_Sub (clock w) (createdAt it)
            then bind advanceHead (fun _ => prune fuel) w
            else Ok (tt, w, [])
        end
  end.
Proof.
  simpl. unfold bind at 1. unfold Head.
  destruct (head (buf w)) as [h|]; [|reflexivity].
  unfold bind at 1. unfold Len, gets.
  destruct (size (buf w) =? 0); [reflexivity|].
  unfold bind at 1. unfold deref_item.
  destruct (items w !! h) as [it|]; [|reflexivity].
  unfold bind at 1. unfold time_Since, gets. unfold bind at 1.
  destruct (maxItemTTL (buf w) <? time_Sub (clock w) (createdAt it)); [|reflexivity].
  destruct (bind advanceHead (fun _ => prune fuel) w) as [[[[] w2] t2]| | |]; reflexivity.
Qed.

Lemma wf_prune fuel :
  forall w w' ss, wf w -> run (prune fuel) w tt w' ss -> wf w'.
Proof.
  induction fuel as [|fuel IH]; intros w w' ss Hwf Hrun.
  - discriminate.
  - unfold run in Hrun. rewrite prune_S in Hrun.
    destruct (head (buf w)) as [h|]; try discriminate.
    destruct (size (buf w) =? 0).
    { injection Hrun as <- <-. assumption. }
    destruct (items w !! h) as [it|]; try discriminate.
    destruct (maxItemTTL (buf w) <? time_Sub (clock w) (createdAt it)).
    + unfold bind in Hrun.
      destruct (advanceHead w) as [[[[] w1] t1]| | |] eqn:E; try discriminate.
      destruct (prune fuel w1) as [[[[] w2] t2]| | |] eqn:E2; try discriminate.
      injection Hrun as <- <-.
      eapply IH; [|exact E2]. eapply wf_advanceHead; eauto.
    + injection Hrun as <- <-. assumption.
Qed.

Lemma reachable_wf w :
  reachable w -> Z.of_nat (length (links w)) <= MaxInt64 -> wf w.
Proof.
  induction 1 as [now sz ttl w Hsz Hnew | w index evs w' Hre IH Hex
                  | w w' Hre IH Hex | w fuel w' Hre IH Hex | w d Hre IH Hd]; intros Hb.
  - eapply wf_newEventBuffer; eauto.
  - apply exec_run in Hex as ([] & ss & Hrun).
    pose proof (Append_replay _ _ _ _ _ Hrun) as Hrep.
    apply replay_links_length in Hrep. simpl in Hrep.
    rewrite length_app in Hrep. simpl in Hrep.
    assert (Hwf : wf w) by (apply IH; lia).
    eapply wf_Append; eauto.
    destruct Hwf as [ (L & K & Hc & Hnd & Hh & Ht & Hs) Hm Hr].
    pose proof (chain_bounded _ _ _ Hc Hnd). lia.
  - apply exec_run in Hex as ([] & ss & Hrun).
    pose proof (sound_advanceHead _ _ _ _ Hrun) as Hrep.
    apply replay_links_length in Hrep.
    eapply wf_advanceHead; eauto. apply IH. lia.
  - apply exec_run in Hex as ([] & ss & Hrun).
    pose proof (sound_prune _ _ _ _ _ Hrun) as Hrep.
    apply replay_links_length in Hrep.
    eapply wf_prune; eauto. apply IH. lia.
  - apply wf_tick. apply IH. exact Hb.
Qed.

Lemma wf_reachable_from_head w :
  wf w -> exists n, reachable_from_head w = Some n /\ size (buf w) + 1 = Z.of_nat n.
Proof.
  intros [ (L & K & Hc & Hnd & Hh & Ht & Hs) Hm Hr].
  exists (length L). split; [|exact Hs].
  unfold reachable_from_head.
  destruct (chain_nonempty _ _ _ Hc) as [HL _].
  destruct L as [|h L]; [congruence|]. simpl in Hh. rewrite Hh.
  rewrite (chain_walk _ _ _ Hc); [reflexivity | reflexivity |].
  eapply chain_bounded; eauto.
Qed.

(** ** Append: order of writes and size bound *)

Lemma wrap64_max : wrap64 (MaxInt64 + 1) = MinInt64.
Proof. vm_compute. reflexivity. Qed.

Lemma newEventBuffer_eq sz ttl now :
  newEventBuffer sz ttl (empty_world now) =
  Ok (tt, sentinel_world now sz, [SStoreHead 0%nat; SStoreTail 0%nat]).
Proof. reflexivity. Qed.

Lemma wf_sentinel_world now sz : wf (sentinel_world now sz).
Proof. apply (wf_newEventBuffer now sz 0). reflexivity. Qed.

Lemma Append_ready w index evs t it w' adv :
  wf w -> tail (buf w) = Some t -> items w !! t = Some it ->
  Forall quiet adv ->
  run (Append index evs) w tt w' (append_writes (link it) (length (items w)) adv) ->
  always_along ready_implies_next
    (append_writes (link it) (length (items w)) adv) (allocated index evs w).
Proof.
  intros [ (L & K & Hc & Hnd & Hh & Ht & Hs) Hm Hr] Htl Hit Hadv Hrun.
  pose proof (Append_replay _ _ _ _ _ Hrun) as Hrep.
  apply (ready_append_writes _ w'); auto.
  - apply ready_allocated. assumption.
  - simpl. rewrite lookup_app_r by lia. rewrite Nat.sub_diag. eauto.
  - destruct (chain_last_inv _ _ _ Hc) as (t' & it' & lk & HLt' & _ & Hit' & Hlk & _).
    assert (t' = t) by congruence. subst t'.
    assert (it' = it) by congruence. subst it'.
    exists lk. apply lookup_app_l_Some. assumption.
Qed.

(** C1. Every [Append] on a well-formed buffer returns, and the writes it
    performs are, in this order: the new item is stored into the old
    tail's [link.next], then into [tail], then [size] is incremented,
    then, only when the incremented size exceeds [maxSize], the head is
    advanced (close [droppedCh] of the old head, store [head], decrement
    [size]), and last of all the old tail's ready channel [ch] is closed.
    Replaying these writes on the memory left by [newBufferItem] gives the
    final memory, and at every point along them a closed ready channel
    has its [next] set: [next] is set before the ready channel closes. *)
Theorem Append_write_order (w : world) (index : Z) (evs : list Event) :
  wf w ->
  exists t it w' adv,
    tail (buf w) = Some t /\ items w !! t = Some it /\
    Append index evs w =
      Ok (tt, w', [SStoreNext (link it) (length (items w)); SStoreTail (length (items w));
                   SAddSize 1] ++ adv ++ [SCloseCh (link it)]) /\
    (if maxSize (buf w) <? wrap64 (size (buf w) + 1)
     then exists h ih q, head (buf w) = Some h /\ items w !! h = Some ih /\
            adv = [SCloseDropped (link ih); SStoreHead q; SAddSize (-1)]
     else adv = []) /\
    replay ([SStoreNext (link it) (length (items w)); SStoreTail (length (items w));
             SAddSize 1] ++ adv ++ [SCloseCh (link it)]) (allocated index evs w) = Ok w' /\
    always_along ready_implies_next
      ([SStoreNext (link it) (length (items w)); SStoreTail (length (items w));
        SAddSize 1] ++ adv ++ [SCloseCh (link it)]) (allocated index evs w).
Proof.
  intros Hwf.
  pose proof Hwf as [ (L & K & Hc & Hnd & Hh & Ht & Hs) Hm Hr].
  destruct (Append_run w index evs L K Hc Hnd Hh Ht)
    as (t & it & w' & adv & Lc & Kc & HLt & Hit & Hrun & Hc2 & Hnd2 & Hh2 & Ht2 &
        Hmx & Httl & Hi2 & Hk2 & Hcase).
  assert (Htl : tail (buf w) = Some t) by congruence.
  assert (Hadv : Forall quiet adv).
  { destruct Hcase as [(_ & -> & _) | (_ & h & ih & q & _ & _ & -> & _)];
      repeat constructor. }
  exists t, it, w', adv.
  split; [exact Htl|]. split; [exact Hit|]. split; [exact Hrun|].
  split.
  { simpl in Hcase.
    destruct Hcase as [(Hcmp & Ha & _) | (Hcmp & h & ih & q & Hhd & Hih & Ha & _)];
      rewrite Hcmp.
    - exact Ha.
    - exists h, ih, q. auto. }
  split; [exact (Append_replay _ _ _ _ _ Hrun)|].
  exact (Append_ready w index evs t it w' adv Hwf Htl Hit Hadv Hrun).
Qed.

(** C1 at a fresh buffer of capacity 2. *)
Lemma Append_write_order_witness :
  exists w' ss,
    Append 1 [mkEvent "jobs" "A" 1 0%nat] (sentinel_world 0 2) = Ok (tt, w', ss) /\
    replay ss (allocated 1 [mkEvent "jobs" "A" 1 0%nat] (sentinel_world 0 2)) = Ok w' /\
    always_along ready_implies_next ss
      (allocated 1 [mkEvent "jobs" "A" 1 0%nat] (sentinel_world 0 2)).
Proof.
  destruct (Append_write_order (sentinel_world 0 2) 1 [mkEvent "jobs" "A" 1 0%nat]
              (wf_sentinel_world 0 2))
    as (t & it & w' & adv & _ & _ & Hrun & _ & Hrep & Hal).
  exists w'. eexists. split; [exact Hrun|]. split; [exact Hrep | exact Hal].
Defined.

(** C2. On a well-formed buffer with [size <= maxSize], [Append] returns
    and leaves [size <= maxSize]. When the increment raises the size above
    [maxSize], exactly one head advance is performed: the head becomes the
    old head's successor (the new item when the old head was also the
    tail) and the size observed afterwards equals [maxSize]. Otherwise no
    head advance is performed. *)
Theorem Append_size_bound (w : world) (index : Z) (evs : list Event) :
  wf w -> size (buf w) <= maxSize (buf w) ->
  exists w' ss,
    Append index evs w = Ok (tt, w', ss) /\
    maxSize (buf w') = maxSize (buf w) /\
    size (buf w') <= maxSize (buf w') /\
    (maxSize (buf w) < wrap64 (size (buf w) + 1) ->
       size (buf w') = maxSize (buf w') /\ head_advances ss = 1%nat /\
       exists h, head (buf w) = Some h /\
         head (buf w') = Some (default (length (items w)) (next_of w h))) /\
    (wrap64 (size (buf w) + 1) <= maxSize (buf w) ->
       head_advances ss = 0%nat /\ head (buf w') = head (buf w)).
Proof.
  intros Hwf Hle.
  pose proof (wf_size_nonneg _ Hwf) as H0.
  pose proof Hwf as [ (L & K & Hc & Hnd & Hh & Ht & Hs) Hm Hr].
  destruct (Append_run w index evs L K Hc Hnd Hh Ht)
    as (t & it & w' & adv & Lc & Kc & HLt & Hit & Hrun & Hc2 & Hnd2 & Hh2 & Ht2 &
        Hmx & Httl & Hi2 & Hk2 & Hcase).
  exists w', (append_writes (link it) (length (items w)) adv).
  split; [exact Hrun|]. split; [exact Hmx|].
  simpl in Hcase. rewrite Hmx.
  destruct Hcase as [(Hcmp & -> & -> & Hsz) | (Hcmp & h & ih & q & Hhd & Hih & -> & HL & Hq & Hsz)].
  - apply Z.ltb_ge in Hcmp.
    split; [lia|]. split; [intros; lia|].
    intros _. split; [reflexivity|].
    rewrite Hh2, Hh. destruct L; [destruct (chain_nonempty _ _ _ Hc) as [? _]; congruence|].
    reflexivity.
  - apply Z.ltb_lt in Hcmp.
    assert (Hsm : size (buf w) = maxSize (buf w) /\ wrap64 (size (buf w) + 1) = size (buf w) + 1).
    { destruct (Z.eq_dec (size (buf w)) MaxInt64) as [E|E].
      - exfalso. rewrite E in Hcmp. rewrite wrap64_max in Hcmp.
        unfold MinInt64, MaxInt64 in *. lia.
      - assert (Hw : wrap64 (size (buf w) + 1) = size (buf w) + 1).
        { apply wrap64_id. unfold MinInt64, MaxInt64 in *. lia. }
        split; [lia | exact Hw]. }
    destruct Hsm as [Hsm Hw].
    assert (Hsz' : size (buf w') = maxSize (buf w)).
    { rewrite Hsz, Hw. replace (size (buf w) + 1 + -1) with (size (buf w)) by lia.
      rewrite wrap64_id; [exact Hsm | unfold MinInt64, MaxInt64 in *; lia]. }
    split; [lia|]. split; [|intros; lia].
    intros _. split; [exact Hsz'|]. split; [reflexivity|].
    exists h. split; [exact Hhd|].
    rewrite Hh2, Hq. f_equal.
    unfold next_of, view.
    destruct Hc as [t0 it0 lk0 Hit0 Hlk0 Hn0 Hch0 Hd0 | p q0 L0 K0 it0 lk0 Hit0 Hlk0 Hn0 Hd0 Hrest].
    + simpl in HL. injection HL as <- <-. simpl in Hq. injection Hq as <-.
      rewrite Hit0, Hlk0, Hn0. reflexivity.
    + simpl in HL. injection HL as <- <-. simpl in Hq. injection Hq as <-.
      rewrite Hit0, Hlk0, Hn0. reflexivity.
Qed.

(** C2 at a full buffer of capacity 0: the head advances on the append. *)
Lemma Append_size_bound_witness :
  size (buf (sentinel_world 0 0)) <= maxSize (buf (sentinel_world 0 0)) /\
  exists w' ss,
    Append 1 [mkEvent "jobs" "A" 1 0%nat] (sentinel_world 0 0) = Ok (tt, w', ss) /\
    size (buf w') <= maxSize (buf w').
Proof.
  split; [simpl; lia|].
  destruct (Append_size_bound (sentinel_world 0 0) 1 [mkEvent "jobs" "A" 1 0%nat]
              (wf_sentinel_world 0 0))
    as (w' & ss & Hrun & _ & Hle & _).
  - simpl. lia.
  - exists w', ss. split; [exact Hrun | exact Hle].
Defined.

(** ** prune *)

Lemma prune_enough_fuel fuel :
  forall w, wf w -> (Z.to_nat (size (buf w)) < fuel)%nat ->
  exists w' ss, prune fuel w = Ok (tt, w', ss) /\ wf w' /\
    prune_stop w' /\ drops_expired w ss.
Proof.
  induction fuel as [|fuel IH]; intros w Hwf Hf; [lia|].
  pose proof (wf_size_nonneg _ Hwf) as H0.
  pose proof Hwf as [ (L & K & Hc & Hnd & Hh & Ht & Hs) Hm Hr].
  rewrite prune_S.
  destruct L as [|h L]; [destruct (chain_nonempty _ _ _ Hc) as [? _]; congruence|].
  simpl in Hh. rewrite Hh.
  destruct (size (buf w) =? 0) eqn:Hz.
  { exists w, []. split; [reflexivity|]. split; [assumption|].
    split; [left; apply Z.eqb_eq; exact Hz | constructor]. }
  apply Z.eqb_neq in Hz.
  destruct (chain_items_valid _ _ _ Hc h) as [it Hit]; [apply elem_of_cons; auto|].
  rewrite Hit.
  destruct (maxItemTTL (buf w) <? time_Sub (clock w) (createdAt it)) eqn:Hage.
  - apply Z.ltb_lt in Hage.
    destruct L as [|q L]; [simpl in Hs; lia|].
    destruct K as [|k K]; [destruct (chain_nonempty _ _ _ Hc) as [_ ?]; congruence|].
    assert (Hk : k = link it).
    { inversion Hc; subst. congruence. }
    destruct (advanceHead_chain w h q L k K Hc Hnd Hh)
      as (w1 & Hrun1 & Hc1 & Hi1 & Hk1 & Hb1 & Hl1).
    pose proof (wf_advanceHead _ _ _ Hwf Hrun1) as Hwf1.
    assert (Hw : wrap64 (size (buf w) + -1) = size (buf w) - 1).
    { apply wrap64_id. unfold MinInt64, MaxInt64 in *. simpl in Hs. lia. }
    destruct (IH w1 Hwf1) as (w' & ss & Hp & Hwf' & Hstop & Hdrops).
    { rewrite Hb1. simpl. rewrite Hw. lia. }
    exists w', ([SCloseDropped k; SStoreHead q; SAddSize (-1)] ++ ss).
    split.
    { unfold bind. unfold run in Hrun1. rewrite Hrun1, Hp. reflexivity. }
    split; [assumption|]. split; [assumption|].
    apply Forall_app. split.
    + repeat constructor; intros l El; try discriminate.
      injection El as <-. exists h, it. auto.
    + unfold drops_expired in Hdrops.
      rewrite Hi1, Hk1, Hb1 in Hdrops. exact Hdrops.
  - apply Z.ltb_ge in Hage.
    exists w, []. split; [reflexivity|]. split; [assumption|].
    split; [|constructor].
    right. exists h, it. auto.
Qed.

(** C6 (defect): [newEventBuffer] does not store its TTL argument, so the
    [maxItemTTL] field is zero whatever TTL the buffer was constructed
    with. A publisher configured with no TTL hands the default hour to
    [newEventBuffer]; two batches are published at time 0; one nanosecond
    later [prune] drops the sentinel and the first batch, each one
    nanosecond old, far younger than the hour. *)
Theorem prune_ignores_ttl :
  NewEventPublisher (mkCfg 10 0) (empty_world 0) =
    Ok (mkPublisher default_ttl_world 0 []) /\
  exec (newEventBuffer 10 defaultTTL) (empty_world 0) = Ok default_ttl_world /\
  maxItemTTL (buf default_ttl_world) = 0 /\
  exec (Append 1 [mkEvent "jobs" "A" 1 0%nat] ;;;
        Append 2 [mkEvent "jobs" "B" 2 1%nat]) default_ttl_world
    = Ok two_batches_world /\
  head (buf two_batches_world) = Some 0%nat /\
  size (buf two_batches_world) = 2 /\
  (exists it, items two_batches_world !! 1%nat = Some it /\
     time_Sub (clock (tick 1 two_batches_world)) (createdAt it) = 1 * Nanosecond /\
     1 * Nanosecond < defaultTTL) /\
  exists w' ss,
    prune 3 (tick 1 two_batches_world) = Ok (tt, w', ss) /\
    ss = [SCloseDropped 0%nat; SStoreHead 1%nat; SAddSize (-1);
          SCloseDropped 1%nat; SStoreHead 2%nat; SAddSize (-1)] /\
    head (buf w') = Some 2%nat /\ size (buf w') = 0 /\
    (droppedCh <$> view w' 1%nat) = Some true.
Proof.
  split; [vm_compute; reflexivity|].
  split; [vm_compute; reflexivity|].
  split; [reflexivity|].
  split; [vm_compute; reflexivity|].
  split; [reflexivity|].
  split; [reflexivity|].
  split.
  { eexists. split; [reflexivity|]. split; vm_compute; reflexivity. }
  eexists. eexists. split; [vm_compute; reflexivity|].
  repeat split; reflexivity.
Qed.

(** ** The size counter *)

(** C7, amended. In every state reachable from construction by Append,
    advanceHead and prune, with fewer than 2^63 links allocated (so that
    the int64 counter has not wrapped), [size] is one less than the number
    of items reachable from [head]: it counts the items after the head,
    not the head. *)
Theorem size_counts_successors (w : world) :
  reachable w -> Z.of_nat (length (links w)) <= MaxInt64 ->
  exists n, reachable_from_head w = Some n /\ size (buf w) + 1 = Z.of_nat n.
Proof.
  intros Hre Hb. apply wf_reachable_from_head. apply reachable_wf; assumption.
Qed.

(** C7 as stated fails on a freshly constructed buffer: one item (the
    sentinel) is reachable from the head and [size] is 0. *)
Lemma fresh_buffer_size_mismatch :
  reachable (sentinel_world 0 2) /\
  reachable_from_head (sentinel_world 0 2) = Some 1%nat /\
  size (buf (sentinel_world 0 2)) = 0 /\
  size (buf (sentinel_world 0 2)) <> Z.of_nat 1.
Proof.
  split.
  - apply (reach_new 0 2 Hour); [unfold MinInt64, MaxInt64; lia | reflexivity].
  - split; [reflexivity|]. split; [reflexivity|]. discriminate.
Qed.

Lemma reachable_one_batch_world : reachable one_batch_world.
Proof.
  apply (reach_Append (sentinel_world 0 2) 1 [mkEvent "jobs" "A" 1 0%nat]).
  - apply (reach_new 0 2 Hour); [unfold MinInt64, MaxInt64; lia | reflexivity].
  - vm_compute. reflexivity.
Qed.

(** C7, amended, at a buffer holding one batch. *)
Lemma size_counts_successors_witness :
  exists n, reachable_from_head one_batch_world = Some n /\
    size (buf one_batch_world) + 1 = Z.of_nat n.
Proof.
  apply (size_counts_successors one_batch_world).
  - exact reachable_one_batch_world.
  - unfold MaxInt64. simpl. lia.
Defined.

(** ** filter *)

Lemma count_keys_spec e ks c :
  count_keys e ks c = (c + length (List.filter (key_matches e) ks))%nat.
Proof.
  revert c. induction ks as [|k ks IH]; intros c; simpl.
  - lia.
  - rewrite IH. destruct (key_matches e k); simpl; lia.
Qed.

Lemma append_keys_spec e ks r :
  append_keys e ks r = r ++ repeat e (length (List.filter (key_matches e) ks)).
Proof.
  revert r. induction ks as [|k ks IH]; intros r; simpl.
  - rewrite app_nil_r. reflexivity.
  - rewrite IH. destruct (key_matches e k); simpl.
    + rewrite <- app_assoc. reflexivity.
    + reflexivity.
Qed.

Lemma count_loop_spec req es c :
  count_loop req es c = (c + total_hits req es)%nat.
Proof.
  revert c. induction es as [|e es IH]; intros c; simpl.
  - lia.
  - unfold hits. destruct (topics req !! Topic e) as [ks|].
    + rewrite IH, count_keys_spec. lia.
    + rewrite IH. lia.
Qed.

Lemma copy_loop_spec req es r :
  copy_loop req es r = r ++ flat_map (fun e => repeat e (hits req e)) es.
Proof.
  revert r. induction es as [|e es IH]; intros r; simpl.
  - rewrite app_nil_r. reflexivity.
  - unfold hits at 1. destruct (topics req !! Topic e) as [ks|].
    + rewrite IH, append_keys_spec. rewrite <- app_assoc. reflexivity.
    + rewrite IH. reflexivity.
Qed.

Lemma existsb_filter_length {A} (f : A -> bool) (l : list A) :
  existsb f l = negb (length (List.filter f l) =? 0)%nat.
Proof.
  induction l as [|x l IH]; simpl; [reflexivity|].
  destruct (f x); simpl; [reflexivity | exact IH].
Qed.

Lemma hits_single req e :
  (hits req e <= 1)%nat -> hits req e = if event_matches req e then 1%nat else 0%nat.
Proof.
  unfold hits, event_matches. destruct (topics req !! Topic e) as [ks|]; [|reflexivity].
  rewrite existsb_filter_length. intros H.
  destruct (length (List.filter (key_matches e) ks)) as [|[|n]]; simpl; try reflexivity; lia.
Qed.

Lemma total_hits_single req es :
  Forall (fun e => (hits req e <= 1)%nat) es ->
  total_hits req es = length (List.filter (event_matches req) es) /\
  flat_map (fun e => repeat e (hits req e)) es = List.filter (event_matches req) es.
Proof.
  induction 1 as [|e es He Hes [IH1 IH2]]; simpl; [split; reflexivity|].
  rewrite (hits_single _ _ He), IH1, IH2.
  destruct (event_matches req e); simpl; split; reflexivity.
Qed.

Lemma filter_all_length {A} (f : A -> bool) (l : list A) :
  length (List.filter f l) = length l -> List.filter f l = l.
Proof.
  induction l as [|x l IH]; simpl; [reflexivity|].
  destruct (f x); simpl; intros H.
  - f_equal. apply IH. lia.
  - pose proof (List.filter_length_le f l). lia.
Qed.

(** With no event satisfying two listed keys, [filter] keeps exactly the
    matching events, once each and in order. *)
Theorem filter_single_hit (req : SubscribeRequest) (es : list Event) :
  Forall (fun e => (hits req e <= 1)%nat) es ->
  filter req es = List.filter (event_matches req) es.
Proof.
  intros H. destruct (total_hits_single req es H) as [Ht Hf].
  unfold filter.
  destruct (length es =? 0)%nat eqn:Hlen.
  { apply Nat.eqb_eq in Hlen. apply length_zero_iff_nil in Hlen. subst. reflexivity. }
  cbv zeta. rewrite count_loop_spec, copy_loop_spec, Hf, Ht. rewrite Nat.add_0_l.
  destruct (length (List.filter (event_matches req) es) =? 0)%nat eqn:E0.
  - apply Nat.eqb_eq in E0. apply length_zero_iff_nil in E0. rewrite E0. reflexivity.
  - destruct (length (List.filter (event_matches req) es) =? length es)%nat eqn:E1.
    + apply Nat.eqb_eq in E1. symmetry. apply filter_all_length. exact E1.
    + reflexivity.
Qed.

Lemma Forall_list_filter {A} (P : A -> Prop) (f : A -> bool) (l : list A) :
  Forall P l -> Forall P (List.filter f l).
Proof.
  induction 1; simpl; [constructor|]. destruct (f x); [constructor|]; assumption.
Qed.

Lemma list_filter_idem {A} (f : A -> bool) (l : list A) :
  List.filter f (List.filter f l) = List.filter f l.
Proof.
  induction l as [|x l IH]; simpl; [reflexivity|].
  destruct (f x) eqn:E; simpl; [rewrite E, IH|]; auto.
Qed.

(** X5: when no event of the batch satisfies two listed keys of its topic,
    filtering a second time changes nothing. *)
Theorem filter_single_hit_idempotent (req : SubscribeRequest) (es : list Event) :
  Forall (fun e => (hits req e <= 1)%nat) es ->
  filter req (filter req es) = filter req es.
Proof.
  intros H. rewrite (filter_single_hit req es H).
  rewrite filter_single_hit by (apply Forall_list_filter; exact H).
  apply list_filter_idem.
Qed.

(** X6: when no event satisfies two listed keys of its topic and every event
    of the batch matches, [filter] returns the input unchanged. *)
Theorem filter_single_hit_covered (req : SubscribeRequest) (es : list Event) :
  Forall (fun e => (hits req e <= 1)%nat) es ->
  Forall (fun e => event_matches req e = true) es ->
  filter req es = es.
Proof.
  intros H Hm. rewrite (filter_single_hit req es H).
  induction Hm as [|e es He Hes IH]; simpl; [reflexivity|].
  rewrite He. f_equal. apply IH. inversion H; assumption.
Qed.

(** C3 (defect). The loops of [filter] count and copy an event once per
    listed key it satisfies, with no [break]. With the keys X and "*"
    listed for topic jobs: the event (jobs, X) counts twice, so on
    [(jobs,X); (nodes,N)] the count equals the length and the input comes
    back whole, the non-matching (nodes,N) included; and on
    [(jobs,X); (jobs,Y)] the event (jobs,X) is returned twice. *)
Theorem filter_double_match :
  event_matches req_jobs_X_star ev_nodes_N = false /\
  filter req_jobs_X_star [ev_jobs_X; ev_nodes_N] = [ev_jobs_X; ev_nodes_N] /\
  event_matches req_jobs_X_star ev_jobs_X = true /\
  event_matches req_jobs_X_star ev_jobs_Y = true /\
  filter req_jobs_X_star [ev_jobs_X; ev_jobs_Y] = [ev_jobs_X; ev_jobs_X; ev_jobs_Y].
Proof. vm_compute. repeat split; reflexivity. Qed.

(** C4 (defect). With the keys X and "*" listed for topic jobs, filtering
    [(jobs,X); (jobs,Y)] gives three events and filtering that result again
    gives five: [filter] is not idempotent there. *)
Theorem filter_not_idempotent :
  filter req_jobs_X_star [ev_jobs_X; ev_jobs_Y] = [ev_jobs_X; ev_jobs_X; ev_jobs_Y] /\
  filter req_jobs_X_star (filter req_jobs_X_star [ev_jobs_X; ev_jobs_Y]) =
    [ev_jobs_X; ev_jobs_X; ev_jobs_X; ev_jobs_X; ev_jobs_Y] /\
  filter req_jobs_X_star (filter req_jobs_X_star [ev_jobs_X; ev_jobs_Y]) <>
    filter req_jobs_X_star [ev_jobs_X; ev_jobs_Y].
Proof. vm_compute. repeat split; try reflexivity. discriminate. Qed.

(** C5 (defect). With the keys X and "*" listed for topic jobs, the list
    [(jobs,X)] is covered by the request, and [filter] returns it with the
    event doubled, not unchanged. *)
Theorem filter_covered_changes_input :
  Forall (fun e => event_matches req_jobs_X_star e = true) [ev_jobs_X] /\
  filter req_jobs_X_star [ev_jobs_X] = [ev_jobs_X; ev_jobs_X] /\
  filter req_jobs_X_star [ev_jobs_X] <> [ev_jobs_X].
Proof.
  split; [repeat constructor|].
  vm_compute. split; [reflexivity | discriminate].
Qed.

(** ** Cursor advance *)

Lemma select_ready_In rnd cs c : select_ready rnd cs = Some c -> In c cs.
Proof.
  unfold select_ready. destruct cs as [|c0 cs]; [discriminate|].
  intros H. apply list_elem_of_In. eapply list_elem_of_lookup_2. exact H.
Qed.

Lemma select_ready_None rnd cs : select_ready rnd cs = None -> cs = [].
Proof.
  unfold select_ready. destruct cs as [|c0 cs]; [reflexivity|].
  intros H. apply lookup_ge_None_1 in H.
  pose proof (Nat.mod_upper_bound rnd (length (c0 :: cs))) as Hb.
  simpl in *. lia.
Qed.

Lemma select_ready_single rnd c : select_ready rnd [c] = Some c.
Proof. unfold select_ready. cbn [length]. rewrite Nat.mod_1_r. reflexivity. Qed.

Lemma ready_cases_In ctx fc lk c :
  In c (ready_cases ctx fc lk) ->
  match c with
  | CaseDone => ctx_Done ctx = true
  | CaseForceClose => fc = true
  | CaseCh => ch lk = true
  end.
Proof.
  unfold ready_cases.
  destruct (ctx_Done ctx), fc, (ch lk); simpl; intros H;
    repeat (destruct H as [<- | H]; [reflexivity|]); try contradiction;
    repeat (destruct H as [E | H]; [discriminate|]); contradiction.
Qed.

(** C8. The cursor step on an item of a buffer whose closed ready
    channels have their [next] set. Whatever case the [select] takes:
    with nothing fired it blocks; on cancellation it returns the context's
    error; on force-close it returns "subscription closed"; on the ready
    signal it returns "event dropped from buffer" when the item's dropped
    signal has fired, else the error carried by the successor when there
    is one, else the successor item. The failures are distinct errors. *)
Theorem Next_typed_outcomes (w : world) (ctx : Context) (fc : bool) (rnd : nat)
    (p : ptr) (it : bufferItem) (lk : bufferLink) :
  ready_implies_next w ->
  items w !! p = Some it -> links w !! link it = Some lk ->
  match select_ready rnd (ready_cases ctx fc lk) with
  | None =>
      ctx_Done ctx = false /\ fc = false /\ ch lk = false /\
      bufferItem_Next w ctx fc rnd (Some p) = Blocked
  | Some CaseDone =>
      exists e, ctx = ctx_done e /\
        bufferItem_Next w ctx fc rnd (Some p) = Ok (None, Some e)
  | Some CaseForceClose =>
      fc = true /\
      bufferItem_Next w ctx fc rnd (Some p) = Ok (None, Some errClosedByForce)
  | Some CaseCh =>
      ch lk = true /\
      if droppedCh lk
      then bufferItem_Next w ctx fc rnd (Some p) = Ok (None, Some errDropped)
      else exists n nit, next lk = Some n /\ items w !! n = Some nit /\
             bufferItem_Next w ctx fc rnd (Some p) =
               match Err nit with
               | Some e => Ok (None, Some e)
               | None => Ok (Some n, None)
               end
  end /\
  errClosedByForce <> errDropped /\
  context_Canceled <> errClosedByForce /\ context_Canceled <> errDropped /\
  context_DeadlineExceeded <> errClosedByForce /\
  context_DeadlineExceeded <> errDropped.
Proof.
  intros Hr Hit Hlk.
  split; [|repeat split; discriminate].
  unfold bufferItem_Next. rewrite Hit, Hlk.
  destruct (select_ready rnd (ready_cases ctx fc lk)) as [c|] eqn:Hsel.
  - pose proof (ready_cases_In _ _ _ _ (select_ready_In _ _ _ Hsel)) as Hc.
    destruct c.
    + destruct ctx as [|e]; [discriminate|]. exists e. split; reflexivity.
    + split; [exact Hc | reflexivity].
    + split; [exact Hc|].
      destruct (droppedCh lk); [reflexivity|].
      destruct (Hr _ _ Hlk) as [Hn Hv].
      destruct (next lk) as [n|] eqn:En; [|exfalso; apply (Hn Hc); reflexivity].
      destruct (Hv n eq_refl) as [nit Hnit].
      exists n, nit. rewrite Hnit. repeat split; reflexivity.
  - apply select_ready_None in Hsel. unfold ready_cases in Hsel.
    destruct (ctx_Done ctx), fc, (ch lk); try discriminate. repeat split; reflexivity.
Qed.

(** A handle that fired alone decides the outcome whatever the draw. *)
Lemma select_only_done e fc lk rnd :
  fc = false -> ch lk = false ->
  select_ready rnd (ready_cases (ctx_done e) fc lk) = Some CaseDone.
Proof. intros -> H. unfold ready_cases. rewrite H. apply select_ready_single. Qed.

Lemma select_only_forceClose lk rnd :
  ch lk = false ->
  select_ready rnd (ready_cases ctx_live true lk) = Some CaseForceClose.
Proof. intros H. unfold ready_cases. rewrite H. apply select_ready_single. Qed.

Lemma select_only_ch lk rnd :
  ch lk = true ->
  select_ready rnd (ready_cases ctx_live false lk) = Some CaseCh.
Proof. intros H. unfold ready_cases. rewrite H. apply select_ready_single. Qed.

(** ** Subscription.Next *)

Lemma Next_success_inv w ctx fc rnd c n :
  bufferItem_Next w ctx fc rnd c = Ok (Some n, None) ->
  exists p nit, c = Some p /\ next_of w p = Some n /\
    items w !! n = Some nit /\ Err nit = None.
Proof.
  unfold bufferItem_Next, next_of, view.
  destruct c as [p|]; [|discriminate].
  destruct (items w !! p) as [it|] eqn:Eit; [|discriminate].
  destruct (links w !! link it) as [lk|] eqn:Elk; [|discriminate].
  destruct (select_ready rnd _) as [[| |]|]; try discriminate;
    try (destruct ctx; discriminate).
  destruct (droppedCh lk); [discriminate|].
  destruct (next lk) as [m|] eqn:En; [|discriminate].
  destruct (items w !! m) as [nit|] eqn:Em; [|discriminate].
  destruct (Err nit) eqn:Ee; [discriminate|].
  intros H. injection H as <-. exists p, nit.
  rewrite Eit, Elk. auto.
Qed.

(** C8 at the sentinel of a buffer holding one batch, with nothing but
    the ready signal fired: the step returns the batch's item. *)
Lemma Next_typed_outcomes_witness :
  bufferItem_Next one_batch_world ctx_live false 0 (Some 0%nat) = Ok (Some 1%nat, None).
Proof.
  assert (Hr : ready_implies_next one_batch_world).
  { apply wf_ready. apply reachable_wf; [exact reachable_one_batch_world|].
    unfold MaxInt64. simpl. lia. }
  destruct (Next_typed_outcomes one_batch_world ctx_live false 0 0%nat
              (mkItem [] 0 None 0%nat 0) (mkLink (Some 1%nat) true false)
              Hr eq_refl eq_refl) as [H _].
  rewrite (select_only_ch (mkLink (Some 1%nat) true false) 0 eq_refl) in H.
  destruct H as (_ & H). cbn [droppedCh] in H.
  destruct H as (n & nit & Hn & Hnit & Hstep).
  cbn [next] in Hn. injection Hn as <-.
  vm_compute in Hnit. injection Hnit as <-.
  exact Hstep.
Defined.

Lemma Next_loop_error rnds :
  forall w ctx s evs e s',
  state s <> subscriptionStateClosed ->
  Next_loop rnds w ctx s = Ok ((evs, Some e), s') ->
  evs = [] /\ state s' = state s /\ req s' = req s /\
  forceClosed s' = forceClosed s /\
  skipped w (req s) (currentItem s) (currentItem s') /\
  exists rnd nxt, In rnd rnds /\
    bufferItem_Next w ctx (forceClosed s) rnd (currentItem s') = Ok (nxt, Some e).
Proof.
  induction rnds as [|rnd rnds IH]; intros w ctx s evs e s' Hst H; [discriminate|].
  simpl in H.
  destruct (bufferItem_Next w ctx (forceClosed s) rnd (currentItem s))
    as [[nxt [err|]]| | |] eqn:Estep; try discriminate.
  - rewrite (proj2 (Z.eqb_neq _ _) Hst) in H. injection H as <- <- <-.
    repeat split; try reflexivity; [constructor|].
    exists rnd, nxt. split; [left; reflexivity | exact Estep].
  - destruct nxt as [n|]; [|discriminate].
    destruct (Next_success_inv _ _ _ _ _ _ Estep) as (p & nit & Hc & Hn & Hnit & He).
    rewrite Hnit in H. cbv zeta in H.
    destruct (length (filter (req s) (Events nit)) =? 0)%nat eqn:El;
      [|discriminate].
    apply Nat.eqb_eq in El.
    destruct (IH w ctx (with_currentItem (Some n) s) evs e s' Hst H)
      as (-> & Hs & Hq & Hf & Hsk & rnd' & nxt' & Hin & Hstep).
    simpl in *.
    repeat split; try assumption.
    + rewrite Hc. eapply skipped_step; eauto.
    + exists rnd', nxt'. split; [right; assumption | assumption].
Qed.

(** C10, amended. When [Subscription.Next] returns an error, no events
    are returned, and the cursor is the starting cursor advanced over zero
    or more successor items whose filtered events were empty (skipped by
    the earlier, successful cursor steps of the call). The failing cursor
    step itself did not move the cursor: it was made on the cursor the
    subscription is left with. A closed subscription is left untouched. *)
Theorem Next_error_position (rnds : list nat) (w : world) (ctx : Context)
    (s : Subscription) (evs : list Event) (e : error) (s' : Subscription) :
  Subscription_Next rnds w ctx s = Ok ((evs, Some e), s') ->
  evs = [] /\ state s' = state s /\ req s' = req s /\
  forceClosed s' = forceClosed s /\
  skipped w (req s) (currentItem s) (currentItem s') /\
  (state s = subscriptionStateClosed /\ s' = s /\ e = ErrSubscriptionClosed
   \/
   state s <> subscriptionStateClosed /\
   exists rnd nxt, In rnd rnds /\
     bufferItem_Next w ctx (forceClosed s) rnd (currentItem s') = Ok (nxt, Some e)).
Proof.
  unfold Subscription_Next.
  destruct (state s =? subscriptionStateClosed) eqn:Est.
  - intros H. injection H as <- <- <-. apply Z.eqb_eq in Est.
    repeat split; try reflexivity; [constructor|]. left. auto.
  - apply Z.eqb_neq in Est. intros H.
    destruct (Next_loop_error rnds w ctx s evs e s' Est H)
      as (? & ? & ? & ? & ? & ?).
    repeat split; try assumption. right. auto.
Qed.

(** A failing first cursor step leaves the subscription as it was. *)
Lemma Next_first_step_fails rnd rnds w ctx s nxt e0 evs e s' :
  bufferItem_Next w ctx (forceClosed s) rnd (currentItem s) = Ok (nxt, Some e0) ->
  Subscription_Next (rnd :: rnds) w ctx s = Ok ((evs, e), s') -> s' = s.
Proof.
  unfold Subscription_Next. intros Hstep.
  destruct (state s =? subscriptionStateClosed) eqn:Est.
  - intros H. injection H as <- <- <-. reflexivity.
  - simpl. rewrite Hstep, Est. intros H. injection H as <- <- <-. reflexivity.
Qed.

(** C10 as stated fails: the context is already cancelled and one
    non-matching batch is published. The first [select] has two ready
    cases and takes the ready channel; the cursor moves to the batch, whose
    filtered events are empty; the second [select] has only the
    cancellation ready. [Next] returns the cancellation error with the
    cursor moved from item 0 to item 1. *)
Lemma Next_error_after_skip :
  exec (Append 1 [mkEvent "nodes" "N" 1 0%nat]) (sentinel_world 0 2) = Ok nodes_batch_world /\
  Subscription_Next [1%nat; 0%nat] nodes_batch_world (ctx_done context_Canceled) sub_at_sentinel
    = Ok (([], Some context_Canceled), with_currentItem (Some 1%nat) sub_at_sentinel) /\
  currentItem (with_currentItem (Some 1%nat) sub_at_sentinel) <> currentItem sub_at_sentinel.
Proof.
  split; [vm_compute; reflexivity|].
  split; [vm_compute; reflexivity|].
  simpl. discriminate.
Qed.

(** The same without any race: nothing is cancelled, the second item is
    skipped and the third carries the producer's error. Whatever the
    draws, the error comes back with the cursor on the second item. *)
Lemma Next_error_after_skip_producer_error (r1 r2 : nat) (rnds : list nat) :
  Subscription_Next (r1 :: r2 :: rnds) producer_failed_world ctx_live sub_at_sentinel
    = Ok (([], Some (errors_New "producer failed")),
          with_currentItem (Some 1%nat) sub_at_sentinel).
Proof.
  unfold Subscription_Next. cbn [state sub_at_sentinel].
  change (subscriptionStateOpen =? subscriptionStateClosed) with false. cbv iota.
  cbn [Next_loop].
  assert (H1 : bufferItem_Next producer_failed_world ctx_live false r1 (Some 0%nat)
               = Ok (Some 1%nat, None)).
  { unfold bufferItem_Next. cbn [producer_failed_world items links lookup list_lookup link].
    rewrite select_only_ch by reflexivity. reflexivity. }
  assert (H2 : bufferItem_Next producer_failed_world ctx_live false r2 (Some 1%nat)
               = Ok (None, Some (errors_New "producer failed"))).
  { unfold bufferItem_Next. cbn [producer_failed_world items links lookup list_lookup link].
    rewrite select_only_ch by reflexivity. reflexivity. }
  cbn [forceClosed currentItem sub_at_sentinel with_currentItem].
  rewrite H1. cbn [producer_failed_world items lookup list_lookup].
  cbv zeta.
  change (length (filter (req (with_currentItem (Some 1%nat) sub_at_sentinel))
                    (Events (mkItem [mkEvent "nodes" "N" 1 0%nat] 1 None 1%nat 0))) =? 0)%nat
    with true.
  cbv iota. cbn [Next_loop forceClosed currentItem with_currentItem sub_at_sentinel].
  rewrite H2. reflexivity.
Qed.

(** C10, amended, on the cancelled call above. *)
Lemma Next_error_position_witness :
  skipped nodes_batch_world (req sub_at_sentinel) (currentItem sub_at_sentinel)
    (Some 1%nat).
Proof.
  apply (Next_error_position [1%nat; 0%nat] nodes_batch_world (ctx_done context_Canceled)
           sub_at_sentinel [] context_Canceled (with_currentItem (Some 1%nat) sub_at_sentinel)).
  vm_compute. reflexivity.
Defined.

(** ** Publish *)

(** C9. [Publish] with an empty events slice changes nothing, for every
    index: the publisher is returned as it was, nothing is handed to the
    writer through [publishCh], and the buffer's size and tail are the
    same; a writer with an empty channel still blocks. *)
Theorem Publish_empty_noop (index : Z) (e : EventPublisher) :
  Publish index [] e = e /\
  publishCh (Publish index [] e) = publishCh e /\
  size (buf (events (Publish index [] e))) = size (buf (events e)) /\
  tail (buf (events (Publish index [] e))) = tail (buf (events e)) /\
  handleUpdates_step (Publish index [] e) = handleUpdates_step e /\
  (publishCh e = [] -> handleUpdates_step (Publish index [] e) = Blocked).
Proof.
  assert (H : Publish index [] e = e) by reflexivity.
  rewrite H. repeat split; try reflexivity.
  intros Hq. unfold handleUpdates_step. rewrite Hq. reflexivity.
Qed.

Lemma Publish_nonempty_delivers index ev evs e :
  publishCh (Publish index (ev :: evs) e) =
  publishCh e ++ [mkChangeEvents index (ev :: evs)].
Proof. reflexivity. Qed.

(** * Further properties of the code *)

(** ** Concrete states *)

Lemma links_one_batch_world : Z.of_nat (length (links one_batch_world)) <= MaxInt64.
Proof. simpl. unfold MaxInt64. lia. Qed.

Lemma wf_one_batch_world : wf one_batch_world.
Proof.
  apply reachable_wf; [apply reachable_one_batch_world | apply links_one_batch_world].
Qed.

Lemma writer_step_one_batch : writer_step (sentinel_world 0 2) one_batch_world.
Proof. apply (ws_Append _ 1 [ev_jobs_A]). vm_compute. reflexivity. Qed.

Lemma single_hits_X_N :
  Forall (fun e => (hits req_jobs_star e <= 1)%nat) [ev_jobs_X; ev_nodes_N].
Proof.
  constructor; [vm_compute; lia|]. constructor; [vm_compute; lia|].
  constructor.
Qed.

Lemma single_hits_X_Y :
  Forall (fun e => (hits req_jobs_star e <= 1)%nat) [ev_jobs_X; ev_jobs_Y].
Proof.
  constructor; [vm_compute; lia|]. constructor; [vm_compute; lia|].
  constructor.
Qed.

Lemma all_match_X_Y :
  Forall (fun e => event_matches req_jobs_star e = true) [ev_jobs_X; ev_jobs_Y].
Proof.
  constructor; [vm_compute; reflexivity|]. constructor; [vm_compute; reflexivity|].
  constructor.
Qed.

Lemma one_batch_items_old :
  forall p it, items (tick 1 one_batch_world) !! p = Some it ->
               createdAt it < clock (tick 1 one_batch_world).
Proof.
  intros p it H. destruct p as [|[|p]]; simpl in H; try discriminate;
    injection H as <-; simpl; lia.
Qed.

Lemma filter_single_hit_idempotent_witness :
  filter req_jobs_star (filter req_jobs_star [ev_jobs_X; ev_nodes_N]) =
  filter req_jobs_star [ev_jobs_X; ev_nodes_N].
Proof. exact (filter_single_hit_idempotent _ _ single_hits_X_N). Defined.

Lemma filter_single_hit_covered_witness :
  filter req_jobs_star [ev_jobs_X; ev_jobs_Y] = [ev_jobs_X; ev_jobs_Y].
Proof. exact (filter_single_hit_covered _ _ single_hits_X_Y all_match_X_Y). Defined.

(** ** What the writes do to a link *)

Lemma exec_step_link_eq s w w' l lk :
  exec_step s w = Ok w' -> links w !! l = Some lk ->
  links w' !! l = Some (step_link l lk s).
Proof.
  intros H Hl. destruct s; simpl in H |- *;
    try (injection H as <-; exact Hl).
  - destruct (links w !! l0) as [lk0|] eqn:E; try discriminate.
    injection H as <-. simpl.
    destruct (Nat.eqb_spec l0 l) as [->|Hne].
    + rewrite list_lookup_insert_eq by (eapply lookup_lt_Some; eauto). congruence.
    + rewrite list_lookup_insert_ne by assumption. exact Hl.
  - destruct (links w !! l0) as [lk0|] eqn:E; try discriminate.
    destruct (ch lk0); try discriminate.
    injection H as <-. simpl.
    destruct (Nat.eqb_spec l0 l) as [->|Hne].
    + rewrite list_lookup_insert_eq by (eapply lookup_lt_Some; eauto). congruence.
    + rewrite list_lookup_insert_ne by assumption. exact Hl.
  - destruct (links w !! l0) as [lk0|] eqn:E; try discriminate.
    destruct (droppedCh lk0); try discriminate.
    injection H as <-. simpl.
    destruct (Nat.eqb_spec l0 l) as [->|Hne].
    + rewrite list_lookup_insert_eq by (eapply lookup_lt_Some; eauto). congruence.
    + rewrite list_lookup_insert_ne by assumption. exact Hl.
Qed.

Lemma replay_link_eq ss :
  forall w w' l lk, replay ss w = Ok w' -> links w !! l = Some lk ->
  links w' !! l = Some (fold_left (step_link l) ss lk).
Proof.
  induction ss as [|s ss IH]; intros w w' l lk H Hl; cbn [replay fold_left] in *.
  - injection H as <-. exact Hl.
  - destruct (exec_step s w) as [w1| | |] eqn:E; try discriminate.
    eapply IH; [exact H|]. eapply exec_step_link_eq; eauto.
Qed.

Lemma replay_items ss :
  forall w w', replay ss w = Ok w' -> items w' = items w /\ clock w' = clock w.
Proof.
  induction ss as [|s ss IH]; intros w w' H; cbn [replay] in *.
  - injection H as <-. auto.
  - destruct (exec_step s w) as [w1| | |] eqn:E; try discriminate.
    destruct (IH _ _ H) as [-> ->]. eapply exec_step_items; eauto.
Qed.

Lemma exec_step_config s w w' :
  exec_step s w = Ok w' ->
  maxSize (buf w') = maxSize (buf w) /\ maxItemTTL (buf w') = maxItemTTL (buf w).
Proof.
  destruct s; simpl; intros H;
    repeat match type of H with
           | context [match ?x with _ => _ end] => destruct x; try discriminate
           end;
    injection H as <-; auto.
Qed.

Lemma replay_config ss :
  forall w w', replay ss w = Ok w' ->
  maxSize (buf w') = maxSize (buf w) /\ maxItemTTL (buf w') = maxItemTTL (buf w).
Proof.
  induction ss as [|s ss IH]; intros w w' H; cbn [replay] in *.
  - injection H as <-. auto.
  - destruct (exec_step s w) as [w1| | |] eqn:E; try discriminate.
    destruct (IH _ _ H) as [-> ->]. eapply exec_step_config; eauto.
Qed.

Lemma replay_head_only_tail ss :
  forall w w', Forall head_only ss -> replay ss w = Ok w' -> tail (buf w') = tail (buf w).
Proof.
  induction ss as [|s ss IH]; intros w w' Hq H; cbn [replay] in *.
  - injection H as <-. auto.
  - destruct (exec_step s w) as [w1| | |] eqn:E; try discriminate.
    inversion Hq as [|? ? Hs Hss]; subst.
    rewrite (IH _ _ Hss H).
    destruct s; simpl in Hs; try contradiction; simpl in E;
      repeat match type of E with
             | context [match ?x with _ => _ end] => destruct x; try discriminate
             end;
      injection E as <-; reflexivity.
Qed.

Lemma head_only_quiet s : head_only s -> quiet s.
Proof. destruct s; simpl; tauto. Qed.

Lemma fold_step_link_head_only l ss :
  forall lk, Forall head_only ss ->
  next (fold_left (step_link l) ss lk) = next lk /\
  ch (fold_left (step_link l) ss lk) = ch lk /\
  (droppedCh lk = true -> droppedCh (fold_left (step_link l) ss lk) = true).
Proof.
  induction ss as [|s ss IH]; intros lk Hq; cbn [fold_left]; [auto|].
  inversion Hq as [|? ? Hs Hss]; subst.
  destruct (IH (step_link l lk s) Hss) as (Hn & Hc & Hd).
  assert (H : next (step_link l lk s) = next lk /\ ch (step_link l lk s) = ch lk /\
              (droppedCh lk = true -> droppedCh (step_link l lk s) = true)).
  { destruct s; simpl in Hs; try contradiction; simpl; auto.
    destruct (l0 =? l)%nat; simpl; auto. }
  destruct H as (Hn' & Hc' & Hd').
  rewrite Hn, Hc, Hn', Hc'. auto.
Qed.

(** The writes of any [advanceHead] that returns. *)
Lemma advanceHead_trace w a w' ss :
  advanceHead w = Ok (a, w', ss) ->
  exists l q, ss = [SCloseDropped l; SStoreHead q; SAddSize (-1)].
Proof.
  unfold advanceHead, bind, Head, deref_item, deref_link, emit, panic.
  destruct (head (buf w)) as [h|]; [|discriminate].
  destruct (items w !! h) as [it|]; [|discriminate].
  destruct (links w !! link it) as [lk|]; [|discriminate].
  destruct (exec_step (SCloseDropped (link it)) w) as [w1| | |]; try discriminate.
  destruct (next lk) as [q|]; [|discriminate].
  destruct (exec_step (SStoreHead q) w1) as [w2| | |]; try discriminate.
  destruct (exec_step (SAddSize (-1)) w2) as [w3| | |]; try discriminate.
  intros H. injection H as <- <- <-. eauto.
Qed.

Lemma advanceHead_head_only w a w' ss :
  advanceHead w = Ok (a, w', ss) -> Forall head_only ss.
Proof.
  intros H. destruct (advanceHead_trace _ _ _ _ H) as (l & q & ->).
  repeat constructor.
Qed.

Lemma prune_head_only fuel :
  forall w a w' ss, prune fuel w = Ok (a, w', ss) -> Forall head_only ss.
Proof.
  induction fuel as [|fuel IH]; intros w a w' ss H; [discriminate|].
  rewrite prune_S in H.
  destruct (head (buf w)) as [h|]; [|discriminate].
  destruct (size (buf w) =? 0); [injection H as <- <- <-; constructor|].
  destruct (items w !! h) as [it|]; [|discriminate].
  destruct (maxItemTTL (buf w) <? time_Sub (clock w) (createdAt it));
    [|injection H as <- <- <-; constructor].
  unfold bind in H.
  destruct (advanceHead w) as [[[[] w1] t1]| | |] eqn:E; try discriminate.
  destruct (prune fuel w1) as [[[[] w2] t2]| | |] eqn:E2; try discriminate.
  injection H as <- <- <-. apply Forall_app. split.
  - eapply advanceHead_head_only; eauto.
  - eapply IH; eauto.
Qed.

(** The writes of any [appendItem] that returns. *)
Lemma appendItem_trace item w a w' ss :
  appendItem item w = Ok (a, w', ss) ->
  exists t it adv, tail (buf w) = Some t /\ items w !! t = Some it /\
    ss = append_writes (link it) item adv /\ Forall head_only adv.
Proof.
  unfold appendItem, bind, Tail, deref_item, emit, gets.
  destruct (tail (buf w)) as [t|] eqn:Et; [|discriminate].
  destruct (items w !! t) as [it|] eqn:Eit; [|discriminate].
  destruct (exec_step (SStoreNext (link it) item) w) as [w1| | |]; try discriminate.
  destruct (exec_step (SStoreTail item) w1) as [w2| | |]; try discriminate.
  destruct (exec_step (SAddSize 1) w2) as [w3| | |]; try discriminate.
  destruct (maxSize (buf w3) <? size (buf w3)).
  - destruct (advanceHead w3) as [[[[] w4] t4]| | |] eqn:Ea; try discriminate.
    destruct (exec_step (SCloseCh (link it)) w4) as [w5| | |]; try discriminate.
    intros H. injection H as <- <- <-.
    exists t, it, t4. repeat split; try reflexivity; try assumption.
    eapply advanceHead_head_only; eauto.
  - unfold ret.
    destruct (exec_step (SCloseCh (link it)) w3) as [w5| | |]; try discriminate.
    intros H. injection H as <- <- <-.
    exists t, it, []. repeat split; try reflexivity; try assumption. constructor.
Qed.

(** ** Calls of the writer *)

Lemma fold_append_writes l lt new adv lk :
  fold_left (step_link l) (append_writes lt new adv) lk =
  step_link l (fold_left (step_link l) adv (step_link l lk (SStoreNext lt new)))
    (SCloseCh lt).
Proof. unfold append_writes. rewrite !fold_left_app. reflexivity. Qed.

Lemma chain_head_tail_links w h L k K t it :
  chain w (h :: L) (k :: K) -> NoDup (k :: K) ->
  last (h :: L) = Some t -> items w !! t = Some it ->
  (k = link it <-> L = []).
Proof.
  intros Hc Hnd Hl Hit.
  destruct (chain_last_inv _ _ _ Hc) as (t' & it' & lk' & Hl' & HK & Hit' & _).
  assert (t' = t) by congruence. subst t'.
  assert (it' = it) by congruence. subst it'.
  destruct L as [|q L'].
  - inversion Hc; subst. simpl in Hl. split; [reflexivity | intros _; congruence].
  - split; [|discriminate]. intros E. exfalso.
    assert (Hrest : chain w (q :: L') K) by (inversion Hc; subst; assumption).
    apply NoDup_cons in Hnd as [Hnin _]. apply Hnin.
    destruct (chain_nonempty _ _ _ Hrest) as [_ HK'].
    destruct K as [|k' K'']; [congruence|].
    rewrite E. eapply last_Some_elem_of. exact HK.
Qed.

(** What [Append] does to a well-formed buffer. *)
Lemma Append_effect w index evs :
  wf w ->
  exists t it lk w' adv,
    tail (buf w) = Some t /\ items w !! t = Some it /\
    links w !! link it = Some lk /\
    next lk = None /\ ch lk = false /\ droppedCh lk = false /\
    Append index evs w = Ok (tt, w', append_writes (link it) (length (items w)) adv) /\
    replay (append_writes (link it) (length (items w)) adv) (allocated index evs w) = Ok w' /\
    items w' = items w ++ [mkItem evs index None (length (links w)) (clock w)] /\
    tail (buf w') = Some (length (items w)) /\
    ((maxSize (buf w) <? wrap64 (size (buf w) + 1)) = false /\ adv = []
     \/
     (maxSize (buf w) <? wrap64 (size (buf w) + 1)) = true /\
     exists h ih q, head (buf w) = Some h /\ items w !! h = Some ih /\
       adv = [SCloseDropped (link ih); SStoreHead q; SAddSize (-1)] /\
       (link ih = link it <-> size (buf w) = 0)).
Proof.
  intros Hwf.
  pose proof Hwf as [ (L & K & Hc & Hnd & Hh & Ht & Hs) Hm Hr].
  destruct (Append_run w index evs L K Hc Hnd Hh Ht)
    as (t & it & w' & adv & Lc & Kc & HLt & Hit & Hrun & Hc2 & Hnd2 & Hh2 & Ht2 &
        Hmx & Httl & Hi2 & Hk2 & Hcase).
  destruct (chain_last_inv _ _ _ Hc) as (t' & it' & lk & HLt' & HK & Hit' & Hlk & Hn & Hch & Hd).
  assert (t' = t) by congruence. subst t'.
  assert (it' = it) by congruence. subst it'.
  exists t, it, lk, w', adv.
  split; [congruence|]. split; [exact Hit|]. split; [exact Hlk|].
  split; [exact Hn|]. split; [exact Hch|]. split; [exact Hd|].
  split; [exact Hrun|]. split; [exact (Append_replay _ _ _ _ _ Hrun)|].
  split; [exact Hi2|].
  simpl in Hcase.
  destruct Hcase as [(Hcmp & -> & -> & Hsz) | (Hcmp & h & ih & q & Hhd & Hih & -> & HL & Hq & Hsz)].
  - split; [rewrite Ht2; apply last_snoc|]. left. auto.
  - split.
    { rewrite Ht2. destruct Lc as [|q' Lc']; [discriminate|].
      change (last (q' :: Lc')) with (last (h :: q' :: Lc')).
      rewrite <- HL. apply last_snoc. }
    right. split; [exact Hcmp|]. exists h, ih, q.
    split; [exact Hhd|]. split; [exact Hih|]. split; [reflexivity|].
    destruct L as [|h0 L0]; [destruct (chain_nonempty _ _ _ Hc) as [? _]; congruence|].
    destruct K as [|k0 K0]; [destruct (chain_nonempty _ _ _ Hc) as [_ ?]; congruence|].
    simpl in Hh. assert (h0 = h) by congruence. subst h0.
    assert (k0 = link ih).
    { inversion Hc; subst; congruence. }
    subst k0.
    rewrite (chain_head_tail_links w h L0 (link ih) K0 t it Hc Hnd HLt Hit).
    simpl in Hs. split.
    + intros ->. simpl in Hs. lia.
    + intros Hz. destruct L0; [reflexivity | simpl in Hs; lia].
Qed.

(** A call of the writer leaves the capacity and the TTL field alone. *)
Lemma writer_keeps_config_core (w w' : world) :
  writer_step w w' ->
  maxSize (buf w') = maxSize (buf w) /\ maxItemTTL (buf w') = maxItemTTL (buf w) /\
  clock w' = clock w.
Proof.
  intros [w0 index evs w0' H | w0 w0' H | w0 fuel w0' H];
    apply exec_run in H as ([] & ss & Hrun).
  - apply Append_replay in Hrun.
    destruct (replay_config _ _ _ Hrun) as [-> ->].
    destruct (replay_items _ _ _ Hrun) as [_ ->]. auto.
  - apply sound_advanceHead in Hrun.
    destruct (replay_config _ _ _ Hrun) as [-> ->].
    destruct (replay_items _ _ _ Hrun) as [_ ->]. auto.
  - apply sound_prune in Hrun.
    destruct (replay_config _ _ _ Hrun) as [-> ->].
    destruct (replay_items _ _ _ Hrun) as [_ ->]. auto.
Qed.

(** X8: a call of [Append], [advanceHead] or [prune] that returns leaves the
    capacity and the TTL field as they were (and the clock of the model). *)
Theorem writer_keeps_config (w w' : world) :
  writer_step w w' ->
  maxSize (buf w') = maxSize (buf w) /\ maxItemTTL (buf w') = maxItemTTL (buf w) /\
  clock w' = clock w.
Proof. exact (writer_keeps_config_core w w'). Qed.

Lemma writer_keeps_config_witness :
  maxSize (buf one_batch_world) = maxSize (buf (sentinel_world 0 2)) /\
  maxItemTTL (buf one_batch_world) = maxItemTTL (buf (sentinel_world 0 2)) /\
  clock one_batch_world = clock (sentinel_world 0 2).
Proof. exact (writer_keeps_config _ _ writer_step_one_batch). Defined.

(** X9: whatever TTL a buffer was constructed with, its [maxItemTTL] field is
    0 in every state reachable by [Append], [advanceHead], [prune] and the
    passing of time. *)
Theorem reachable_ttl_zero (w : world) : reachable w -> maxItemTTL (buf w) = 0.
Proof.
  induction 1 as [now sz ttl w Hsz Hnew | w index evs w' Hre IH Hex
                  | w w' Hre IH Hex | w fuel w' Hre IH Hex | w d Hre IH Hd].
  - cbv in Hnew. injection Hnew as <-. reflexivity.
  - destruct (writer_keeps_config_core w w' (ws_Append _ _ _ _ Hex)) as (_ & -> & _). exact IH.
  - destruct (writer_keeps_config_core w w' (ws_advanceHead _ _ Hex)) as (_ & -> & _). exact IH.
  - destruct (writer_keeps_config_core w w' (ws_prune _ _ _ Hex)) as (_ & -> & _). exact IH.
  - exact IH.
Qed.

Lemma reachable_ttl_zero_witness : maxItemTTL (buf one_batch_world) = 0.
Proof. exact (reachable_ttl_zero _ reachable_one_batch_world). Defined.



(** ** Readers at the tail *)

(** The cursor step reads nothing but the link of the item it stands on. *)
Lemma Next_on_link w ctx fc rnd c cit lk :
  items w !! c = Some cit -> links w !! link cit = Some lk ->
  bufferItem_Next w ctx fc rnd (Some c) =
  match select_ready rnd (ready_cases ctx fc lk) with
  | None => Blocked
  | Some CaseDone => Ok (None, ctx_Err ctx)
  | Some CaseForceClose => Ok (None, Some errClosedByForce)
  | Some CaseCh =>
      if droppedCh lk then Ok (None, Some errDropped)
      else match next lk with
           | None => Ok (None, Some (errors_New "invalid next item"))
           | Some n =>
               match items w !! n with
               | None => Panic nil_deref
               | Some nit =>
                   match Err nit with
                   | Some e => Ok (None, Some e)
                   | None => Ok (Some n, None)
                   end
               end
           end
  end.
Proof. intros Hc Hl. unfold bufferItem_Next. rewrite Hc, Hl. reflexivity. Qed.

Lemma select_nothing lk rnd :
  ch lk = false -> select_ready rnd (ready_cases ctx_live false lk) = None.
Proof. intros H. unfold ready_cases. rewrite H. reflexivity. Qed.

(** a reader on the tail's link waits. *)
Lemma tail_reader_blocks_core (w : world) (t c : ptr) (it cit : bufferItem) (rnd : nat) :
  wf w -> tail (buf w) = Some t -> items w !! t = Some it ->
  items w !! c = Some cit -> link cit = link it ->
  bufferItem_Next w ctx_live false rnd (Some c) = Blocked.
Proof.
  intros [ (L & K & Hc & Hnd & Hh & Ht & Hs) Hm Hr] Htl Hit Hcit Hlink.
  destruct (chain_last_inv _ _ _ Hc) as (t' & it' & lk & HLt & _ & Hit' & Hlk & Hn & Hch & Hd).
  assert (t' = t) by congruence. subst t'.
  assert (it' = it) by congruence. subst it'.
  rewrite (Next_on_link w ctx_live false rnd c cit lk Hcit) by (rewrite Hlink; exact Hlk).
  rewrite select_nothing by exact Hch. reflexivity.
Qed.

(** X18: on a well-formed buffer, [Next] on an item that shares the tail's
    link, with a live context and no forced close, blocks. *)
Theorem tail_reader_blocks (w : world) (t c : ptr) (it cit : bufferItem) (rnd : nat) :
  wf w -> tail (buf w) = Some t -> items w !! t = Some it ->
  items w !! c = Some cit -> link cit = link it ->
  bufferItem_Next w ctx_live false rnd (Some c) = Blocked.
Proof. exact (tail_reader_blocks_core w t c it cit rnd). Qed.

Lemma tail_reader_blocks_witness :
  bufferItem_Next (sentinel_world 0 2) ctx_live false 7 (Some 0%nat) = Blocked.
Proof.
  exact (tail_reader_blocks (sentinel_world 0 2) 0%nat 0%nat _ _ 7
           (wf_sentinel_world 0 2) eq_refl eq_refl eq_refl eq_refl).
Defined.

(** The old tail's link once [Append] has returned. *)
Lemma Append_old_tail_link w index evs :
  wf w ->
  exists t it w' ss,
    tail (buf w) = Some t /\ items w !! t = Some it /\
    Append index evs w = Ok (tt, w', ss) /\
    items w' = items w ++ [mkItem evs index None (length (links w)) (clock w)] /\
    tail (buf w') = Some (length (items w)) /\
    links w' !! link it =
      Some (mkLink (Some (length (items w))) true
              ((maxSize (buf w) <? 1) && (size (buf w) =? 0))).
Proof.
  intros Hwf. pose proof (wf_size_nonneg _ Hwf) as H0.
  destruct (Append_effect w index evs Hwf)
    as (t & it & lkt & w' & adv & Ht & Hit & Hlk & Hn & Hch & Hd & Hrun & Hrep & Hi & Htl & Hcase).
  exists t, it, w', (append_writes (link it) (length (items w)) adv).
  split; [exact Ht|]. split; [exact Hit|]. split; [exact Hrun|].
  split; [exact Hi|]. split; [exact Htl|].
  assert (Hl1 : links (allocated index evs w) !! link it = Some lkt)
    by (apply lookup_app_l_Some; exact Hlk).
  rewrite (replay_link_eq _ _ _ _ _ Hrep Hl1), fold_append_writes.
  cbn [step_link]. rewrite Nat.eqb_refl.
  destruct lkt as [nx c d]. cbn [next ch droppedCh] in Hn, Hch, Hd. subst nx c d.
  assert (Hw1 : wrap64 (0 + 1) = 1) by (apply wrap64_id; unfold MinInt64, MaxInt64; lia).
  destruct Hcase as [(Hcmp & ->) | (Hcmp & h & ih & q & Hhd & Hih & -> & Hiff)].
  - assert (E : (maxSize (buf w) <? 1) && (size (buf w) =? 0) = false).
    { apply andb_false_iff.
      destruct (size (buf w) =? 0) eqn:Ez; [|auto]. left.
      apply Z.eqb_eq in Ez. rewrite Ez, Hw1 in Hcmp. exact Hcmp. }
    rewrite E. reflexivity.
  - cbn [fold_left step_link].
    destruct (link ih =? link it)%nat eqn:E.
    + apply Nat.eqb_eq in E. apply Hiff in E. rewrite E, Hw1 in Hcmp. rewrite E, Hcmp.
      reflexivity.
    + assert (E' : (maxSize (buf w) <? 1) && (size (buf w) =? 0) = false).
      { apply andb_false_iff. right.
        apply Z.eqb_neq. intros Ez. apply Hiff in Ez. apply Nat.eqb_neq in E. contradiction. }
      rewrite E'. reflexivity.
Qed.

(** publication reaches a reader on the tail's link. *)
Lemma Append_wakes_tail_reader_core (w : world) (index : Z) (evs : list Event)
    (t c : ptr) (it cit : bufferItem) :
  wf w -> tail (buf w) = Some t -> items w !! t = Some it ->
  items w !! c = Some cit -> link cit = link it ->
  exists w' ss,
    Append index evs w = Ok (tt, w', ss) /\
    tail (buf w') = Some (length (items w)) /\
    items w' !! length (items w) =
      Some (mkItem evs index None (length (links w)) (clock w)) /\
    forall rnd,
      bufferItem_Next w' ctx_live false rnd (Some c) =
      if (maxSize (buf w) <? 1) && (size (buf w) =? 0)
      then Ok (None, Some errDropped)
      else Ok (Some (length (items w)), None).
Proof.
  intros Hwf Htl Hit Hcit Hlink.
  destruct (Append_old_tail_link w index evs Hwf)
    as (t' & it' & w' & ss & Ht' & Hit' & Hrun & Hi & Htl' & Hlk').
  assert (t' = t) by congruence. subst t'.
  assert (it' = it) by congruence. subst it'.
  exists w', ss. split; [exact Hrun|]. split; [exact Htl'|].
  assert (Hnew : items w' !! length (items w) =
                 Some (mkItem evs index None (length (links w)) (clock w))).
  { rewrite Hi. rewrite lookup_app_r by lia. rewrite Nat.sub_diag. reflexivity. }
  split; [exact Hnew|].
  intros rnd.
  assert (Hc' : items w' !! c = Some cit) by (rewrite Hi; apply lookup_app_l_Some; exact Hcit).
  rewrite (Next_on_link w' ctx_live false rnd c cit _ Hc') by (rewrite Hlink; exact Hlk').
  rewrite select_only_ch by reflexivity.
  cbn [droppedCh next].
  destruct ((maxSize (buf w) <? 1) && (size (buf w) =? 0)); [reflexivity|].
  rewrite Hnew. reflexivity.
Qed.

(** X19: after [Append] on a well-formed buffer the new item is the tail,
    and a live reader waiting on the old tail's link gets it from [Next];
    except when the capacity is below 1 and the buffer was empty: the
    append then dropped the item the reader waits on, and [Next] reports
    the drop. *)
Theorem Append_wakes_tail_reader (w : world) (index : Z) (evs : list Event)
    (t c : ptr) (it cit : bufferItem) :
  wf w -> tail (buf w) = Some t -> items w !! t = Some it ->
  items w !! c = Some cit -> link cit = link it ->
  exists w' ss,
    Append index evs w = Ok (tt, w', ss) /\
    tail (buf w') = Some (length (items w)) /\
    items w' !! length (items w) =
      Some (mkItem evs index None (length (links w)) (clock w)) /\
    forall rnd,
      bufferItem_Next w' ctx_live false rnd (Some c) =
      if (maxSize (buf w) <? 1) && (size (buf w) =? 0)
      then Ok (None, Some errDropped)
      else Ok (Some (length (items w)), None).
Proof. exact (Append_wakes_tail_reader_core w index evs t c it cit). Qed.

Lemma Append_wakes_tail_reader_witness :
  exists w' ss,
    Append 1 [ev_jobs_A] (sentinel_world 0 2) = Ok (tt, w', ss) /\
    forall rnd, bufferItem_Next w' ctx_live false rnd (Some 0%nat) = Ok (Some 1%nat, None).
Proof.
  destruct (Append_wakes_tail_reader (sentinel_world 0 2) 1 [ev_jobs_A] 0%nat 0%nat _ _
              (wf_sentinel_world 0 2) eq_refl eq_refl eq_refl eq_refl)
    as (w' & ss & Hrun & _ & _ & Hnext).
  exists w', ss. split; [exact Hrun | exact Hnext].
Defined.

Lemma wf_alloc_item w x :
  wf w -> wf (mkWorld (items w ++ [x]) (links w) (buf w) (clock w)).
Proof.
  intros [ (L & K & Hc & Hnd & Hh & Ht & Hs) Hm Hr].
  constructor; [|exact Hm|].
  - exists L, K. repeat split; auto.
    eapply chain_frame; [exact Hc| |]; intros y Hy; simpl; [|reflexivity].
    destruct (chain_items_valid _ _ _ Hc _ Hy) as [z Hz].
    rewrite Hz. apply lookup_app_l_Some. exact Hz.
  - intros l lk Hl. simpl in *. destruct (Hr l lk Hl) as [H1 H2].
    split; [exact H1|]. intros n Hn. destruct (H2 n Hn) as [z Hz].
    exists z. apply lookup_app_l_Some. exact Hz.
Qed.

(** NextLink *)
Lemma NextLink_tail_core (w : world) (t : ptr) (it : bufferItem) :
  wf w -> tail (buf w) = Some t -> items w !! t = Some it ->
  exists w',
    NextLink t w = Ok (length (items w), w', []) /\
    items w' = items w ++ [mkItem [] 0 None (link it) zero_Time] /\
    links w' = links w /\ buf w' = buf w /\ clock w' = clock w /\
    wf w' /\
    forall ctx fc rnd,
      bufferItem_Next w' ctx fc rnd (Some (length (items w))) =
      bufferItem_Next w' ctx fc rnd (Some t).
Proof.
  intros Hwf Htl Hit.
  pose proof Hwf as [ (L & K & Hc & Hnd & Hh & Ht & Hs) Hm Hr].
  destruct (chain_last_inv _ _ _ Hc) as (t' & it' & lk & HLt & _ & Hit' & Hlk & Hn & Hch & Hd).
  assert (t' = t) by congruence. subst t'.
  assert (it' = it) by congruence. subst it'.
  eexists. split.
  { unfold NextLink, NextNoBlock, bind, deref_item, deref_link, ret.
    rewrite Hit, Hlk, Hn. cbv beta iota. rewrite Hit. reflexivity. }
  cbn [items links buf clock].
  split; [reflexivity|]. split; [reflexivity|]. split; [reflexivity|].
  split; [reflexivity|]. split.
  - apply wf_alloc_item. exact Hwf.
  - intros ctx fc rnd.
    unfold bufferItem_Next. cbn [items links].
    rewrite lookup_app_r by lia. rewrite Nat.sub_diag.
    rewrite (lookup_app_l_Some _ _ _ _ Hit). reflexivity.
Qed.

(** X25: [NextLink] on the tail of a well-formed buffer allocates one empty
    item on the tail's link, changes neither links nor buffer fields, keeps
    the buffer well-formed, and [Next] behaves on the new item as on the
    tail. *)
Theorem NextLink_tail (w : world) (t : ptr) (it : bufferItem) :
  wf w -> tail (buf w) = Some t -> items w !! t = Some it ->
  exists w',
    NextLink t w = Ok (length (items w), w', []) /\
    items w' = items w ++ [mkItem [] 0 None (link it) zero_Time] /\
    links w' = links w /\ buf w' = buf w /\ clock w' = clock w /\
    wf w' /\
    forall ctx fc rnd,
      bufferItem_Next w' ctx fc rnd (Some (length (items w))) =
      bufferItem_Next w' ctx fc rnd (Some t).
Proof. exact (NextLink_tail_core w t it). Qed.

Lemma NextLink_tail_witness :
  exists w',
    NextLink 0%nat (sentinel_world 0 2) = Ok (1%nat, w', []) /\ wf w' /\
    forall ctx fc rnd,
      bufferItem_Next w' ctx fc rnd (Some 1%nat) = bufferItem_Next w' ctx fc rnd (Some 0%nat).
Proof.
  destruct (NextLink_tail (sentinel_world 0 2) 0%nat _ (wf_sentinel_world 0 2) eq_refl eq_refl)
    as (w' & Hrun & _ & _ & _ & _ & Hwf & Hsame).
  exists w'. split; [exact Hrun|]. split; [exact Hwf | exact Hsame].
Defined.

(** ** advanceHead and prune *)

(** advanceHead on a buffer that holds only its head panics. *)
Lemma advanceHead_on_empty_panics_core (w : world) :
  wf w -> size (buf w) = 0 ->
  advanceHead w = Panic "sync/atomic: store of nil value into Value".
Proof.
  intros [ (L & K & Hc & Hnd & Hh & Ht & Hs) Hm Hr] Hz.
  destruct Hc as [t it lk Hit Hlk Hn Hch Hd | p q L K it lk Hit Hlk Hn Hd Hrest].
  - apply (advanceHead_empty w t (link it)); [|exact Hh].
    eapply chain_last; eauto.
  - simpl in Hs. lia.
Qed.

(** X13: [advanceHead] on a well-formed buffer that holds only its head
    panics: the head has no successor, and storing nil into the atomic head
    is a panic. *)
Theorem advanceHead_on_empty_panics (w : world) :
  wf w -> size (buf w) = 0 ->
  advanceHead w = Panic "sync/atomic: store of nil value into Value".
Proof. exact (advanceHead_on_empty_panics_core w). Qed.

Lemma advanceHead_on_empty_panics_witness :
  size (buf (sentinel_world 0 2)) = 0 /\
  advanceHead (sentinel_world 0 2) = Panic "sync/atomic: store of nil value into Value".
Proof.
  split; [reflexivity|].
  exact (advanceHead_on_empty_panics _ (wf_sentinel_world 0 2) eq_refl).
Defined.

(** advanceHead on a buffer that holds more than its head. *)
Lemma advanceHead_drops_head_core (w : world) :
  wf w -> 0 < size (buf w) ->
  exists h ih q w',
    head (buf w) = Some h /\ items w !! h = Some ih /\ next_of w h = Some q /\
    advanceHead w = Ok (tt, w', [SCloseDropped (link ih); SStoreHead q; SAddSize (-1)]) /\
    head (buf w') = Some q /\ size (buf w') = size (buf w) - 1 /\
    tail (buf w') = tail (buf w) /\ items w' = items w /\
    (droppedCh <$> view w' h) = Some true /\
    next_of w' h = Some q /\
    wf w'.
Proof.
  intros Hwf Hpos.
  pose proof Hwf as [ (L & K & Hc & Hnd & Hh & Ht & Hs) Hm Hr].
  destruct Hc as [t it lk Hit Hlk Hn Hch Hd | h q L K ih lk Hit Hlk Hn Hd Hrest];
    [simpl in Hs; lia|].
  assert (Hc : chain w (h :: q :: L) (link ih :: K)) by (eapply chain_cons; eauto).
  destruct (advanceHead_chain w h q L (link ih) K Hc Hnd Hh)
    as (w' & Hrun & Hc' & Hi' & Hk' & Hb' & Hl').
  exists h, ih, q, w'.
  split; [exact Hh|]. split; [exact Hit|].
  split; [unfold next_of, view; rewrite Hit, Hlk; exact Hn|].
  split; [exact Hrun|].
  assert (Hw : wrap64 (size (buf w) + -1) = size (buf w) - 1).
  { apply wrap64_id. unfold MinInt64, MaxInt64 in *. lia. }
  rewrite Hb'. cbn [head size tail].
  split; [reflexivity|]. split; [exact Hw|]. split; [reflexivity|].
  split; [exact Hi'|].
  pose proof (sound_advanceHead _ _ _ _ Hrun) as Hrep.
  pose proof (replay_link_eq _ _ _ _ _ Hrep Hlk) as Hlk'.
  cbn [fold_left step_link] in Hlk'. rewrite Nat.eqb_refl in Hlk'.
  unfold next_of, view. rewrite Hi', Hit, Hlk'. cbn.
  split; [reflexivity|]. split; [exact Hn|].
  exact (wf_advanceHead _ _ _ Hwf Hrun).
Qed.

(** X14: [advanceHead] on a well-formed buffer with [Len] above 0 returns
    after three writes: it closes the old head's dropped signal, makes the
    successor the head and decrements [size]; tail and items are unchanged,
    the old head still points to the new one and the buffer stays
    well-formed. *)
Theorem advanceHead_drops_head (w : world) :
  wf w -> 0 < size (buf w) ->
  exists h ih q w',
    head (buf w) = Some h /\ items w !! h = Some ih /\ next_of w h = Some q /\
    advanceHead w = Ok (tt, w', [SCloseDropped (link ih); SStoreHead q; SAddSize (-1)]) /\
    head (buf w') = Some q /\ size (buf w') = size (buf w) - 1 /\
    tail (buf w') = tail (buf w) /\ items w' = items w /\
    (droppedCh <$> view w' h) = Some true /\
    next_of w' h = Some q /\
    wf w'.
Proof. exact (advanceHead_drops_head_core w). Qed.

Lemma advanceHead_drops_head_witness :
  0 < size (buf one_batch_world) /\
  exists w', exec advanceHead one_batch_world = Ok w' /\
    size (buf w') = size (buf one_batch_world) - 1 /\ wf w'.
Proof.
  assert (Hpos : 0 < size (buf one_batch_world)) by (simpl; lia).
  split; [exact Hpos|].
  destruct (advanceHead_drops_head _ wf_one_batch_world Hpos)
    as (h & ih & q & w' & _ & _ & _ & Hrun & _ & Hsz & _ & _ & _ & _ & Hwf).
  exists w'. unfold exec. rewrite Hrun. auto.
Defined.

(** Len() is 0 exactly when head and tail are the same item. *)
Lemma size_zero_iff_head_is_tail_core (w : world) :
  wf w -> (size (buf w) = 0 <-> head (buf w) = tail (buf w)).
Proof.
  intros [ (L & K & Hc & Hnd & Hh & Ht & Hs) Hm Hr].
  destruct L as [|h L]; [destruct (chain_nonempty _ _ _ Hc) as [? _]; congruence|].
  destruct K as [|k K]; [destruct (chain_nonempty _ _ _ Hc) as [_ ?]; congruence|].
  destruct (chain_last_inv _ _ _ Hc) as (t & it & lk & HLt & HK & Hit & _).
  pose proof (chain_head_tail_links w h L k K t it Hc Hnd HLt Hit) as Hiff.
  rewrite Hh, Ht, HLt. cbn [lookup list_lookup].
  split.
  - intros Hz. destruct L; [simpl in HLt; congruence | simpl in Hs; lia].
  - intros E. injection E as ->.
    assert (k = link it).
    { inversion Hc; subst; congruence. }
    apply Hiff in H. subst L. simpl in Hs. lia.
Qed.

(** X12: on a well-formed buffer, [Len] is 0 exactly when head and tail are
    the same item. *)
Theorem size_zero_iff_head_is_tail (w : world) :
  wf w -> (size (buf w) = 0 <-> head (buf w) = tail (buf w)).
Proof. exact (size_zero_iff_head_is_tail_core w). Qed.

Lemma size_zero_iff_head_is_tail_witness :
  size (buf (sentinel_world 0 2)) = 0 <->
  head (buf (sentinel_world 0 2)) = tail (buf (sentinel_world 0 2)).
Proof. exact (size_zero_iff_head_is_tail _ (wf_sentinel_world 0 2)). Defined.

Lemma advanceHead_wf_run w w' ss :
  wf w -> advanceHead w = Ok (tt, w', ss) ->
  wf w' /\ size (buf w') = size (buf w) - 1 /\ 0 < size (buf w).
Proof.
  intros Hwf Hrun.
  destruct (Z.eq_dec (size (buf w)) 0) as [Ez|Ez].
  - rewrite (advanceHead_on_empty_panics_core w Hwf Ez) in Hrun. discriminate.
  - pose proof (wf_size_nonneg _ Hwf).
    destruct (advanceHead_drops_head_core w Hwf) as (h & ih & q & w2 & _ & _ & _ & Hrun2 & _ & Hsz & _ & _ & _ & _ & Hwf2); [lia|].
    rewrite Hrun in Hrun2. injection Hrun2 as <- _.
    split; [exact Hwf2|]. split; [exact Hsz | lia].
Qed.

Lemma prune_wf_size fuel :
  forall w w' ss, wf w -> prune fuel w = Ok (tt, w', ss) ->
  wf w' /\ size (buf w') <= size (buf w).
Proof.
  induction fuel as [|fuel IH]; intros w w' ss Hwf H; [discriminate|].
  rewrite prune_S in H.
  destruct (head (buf w)) as [h|]; [|discriminate].
  destruct (size (buf w) =? 0); [injection H as <- <-; split; [exact Hwf | lia]|].
  destruct (items w !! h) as [it|]; [|discriminate].
  destruct (maxItemTTL (buf w) <? time_Sub (clock w) (createdAt it));
    [|injection H as <- <-; split; [exact Hwf | lia]].
  unfold bind in H.
  destruct (advanceHead w) as [[[[] w1] t1]| | |] eqn:E; try discriminate.
  destruct (prune fuel w1) as [[[[] w2] t2]| | |] eqn:E2; try discriminate.
  injection H as <- <-.
  destruct (advanceHead_wf_run _ _ _ Hwf E) as (Hwf1 & Hs1 & _).
  destruct (IH _ _ _ Hwf1 E2) as [Hwf2 Hs2]. split; [exact Hwf2 | lia].
Qed.

(** X11: in every reachable state, before the 64-bit counter could wrap,
    [size] lies between 0 and the capacity (0 when the capacity is
    negative). *)
Theorem reachable_size_bound (w : world) :
  reachable w -> Z.of_nat (length (links w)) <= MaxInt64 ->
  0 <= size (buf w) <= Z.max 0 (maxSize (buf w)).
Proof.
  intros Hre Hb.
  split; [apply wf_size_nonneg; apply reachable_wf; assumption|].
  revert Hb.
  induction Hre as [now sz ttl w Hsz Hnew | w index evs w' Hre IH Hex
                  | w w' Hre IH Hex | w fuel w' Hre IH Hex | w d Hre IH Hd]; intros Hb.
  - cbv in Hnew. injection Hnew as <-. simpl. lia.
  - pose proof Hex as Hex0.
    apply exec_run in Hex as ([] & ss & Hrun).
    pose proof (Append_replay _ _ _ _ _ Hrun) as Hrep.
    apply replay_links_length in Hrep. simpl in Hrep.
    rewrite length_app in Hrep. simpl in Hrep.
    assert (Hwf : wf w) by (apply reachable_wf; [exact Hre | lia]).
    specialize (IH ltac:(lia)).
    pose proof (wf_size_nonneg _ Hwf) as H0.
    pose proof Hwf as [ (L & K & Hc & Hnd & Hh & Ht & Hs) Hm Hr].
    pose proof (chain_bounded _ _ _ Hc Hnd) as HLb.
    destruct (Append_run w index evs L K Hc Hnd Hh Ht)
      as (t & it & w2 & adv & Lc & Kc & HLt & Hit & Hrun2 & _ & _ & _ & _ &
          Hmx & _ & _ & _ & Hcase).
    unfold run in Hrun, Hrun2. rewrite Hrun in Hrun2. injection Hrun2 as <- _.
    assert (Hw : wrap64 (size (buf w) + 1) = size (buf w) + 1).
    { apply wrap64_id. unfold MinInt64, MaxInt64 in *. lia. }
    simpl in Hcase. rewrite Hw in Hcase. rewrite Hmx.
    destruct Hcase as [(Hcmp & _ & _ & ->) | (Hcmp & h & ih & q & _ & _ & _ & _ & _ & ->)].
    + apply Z.ltb_ge in Hcmp. lia.
    + replace (size (buf w) + 1 + -1) with (size (buf w)) by lia.
      rewrite wrap64_id by (unfold MinInt64, MaxInt64 in *; lia). exact IH.
  - pose proof Hex as Hex0.
    apply exec_run in Hex as ([] & ss & Hrun).
    pose proof (sound_advanceHead _ _ _ _ Hrun) as Hrep.
    apply replay_links_length in Hrep.
    assert (Hwf : wf w) by (apply reachable_wf; [exact Hre | lia]).
    specialize (IH ltac:(lia)).
    destruct (advanceHead_wf_run _ _ _ Hwf Hrun) as (_ & -> & _).
    destruct (writer_keeps_config_core w w' (ws_advanceHead _ _ Hex0)) as (-> & _). lia.
  - pose proof Hex as Hex0.
    apply exec_run in Hex as ([] & ss & Hrun).
    pose proof (sound_prune _ _ _ _ _ Hrun) as Hrep.
    apply replay_links_length in Hrep.
    assert (Hwf : wf w) by (apply reachable_wf; [exact Hre | lia]).
    specialize (IH ltac:(lia)).
    destruct (prune_wf_size _ _ _ _ Hwf Hrun) as (_ & Hle).
    destruct (writer_keeps_config_core w w' (ws_prune _ _ _ Hex0)) as (-> & _). lia.
  - simpl. apply IH. exact Hb.
Qed.

Lemma reachable_size_bound_witness :
  0 <= size (buf one_batch_world) <= Z.max 0 (maxSize (buf one_batch_world)).
Proof.
  exact (reachable_size_bound _ reachable_one_batch_world links_one_batch_world).
Defined.

Lemma time_Sub_pos now t : t < now -> 0 < time_Sub now t.
Proof.
  intros H. unfold time_Sub.
  destruct (MaxInt64 <? now - t); [unfold MaxInt64; lia|].
  destruct (now - t <? MinInt64) eqn:E; [apply Z.ltb_lt in E; unfold MinInt64 in E; lia | lia].
Qed.

(** X16: with the [maxItemTTL] field at 0 and every item created before the
    current time, [prune] drops everything before the tail: [size] becomes
    0 and the head becomes the tail; tail and items are untouched. *)
Theorem prune_empties_buffer (w : world) (fuel : nat) :
  wf w -> maxItemTTL (buf w) = 0 ->
  (forall p it, items w !! p = Some it -> createdAt it < clock w) ->
  (Z.to_nat (size (buf w)) < fuel)%nat ->
  exists w' ss,
    prune fuel w = Ok (tt, w', ss) /\
    size (buf w') = 0 /\ head (buf w') = tail (buf w) /\ tail (buf w') = tail (buf w) /\
    items w' = items w /\ wf w'.
Proof.
  intros Hwf Httl Hold Hf.
  destruct (prune_enough_fuel fuel w Hwf Hf) as (w' & ss & Hp & Hwf' & Hstop & _).
  pose proof (sound_prune _ _ _ _ _ Hp) as Hrep.
  destruct (replay_items _ _ _ Hrep) as [Hi Hk].
  destruct (replay_config _ _ _ Hrep) as [_ Ht].
  pose proof (replay_head_only_tail _ _ _ (prune_head_only _ _ _ _ _ Hp) Hrep) as Htl.
  assert (Hz : size (buf w') = 0).
  { destruct Hstop as [Hz | (h & it & Hh & Hit & Hage)]; [exact Hz|].
    exfalso. rewrite Hi in Hit. rewrite Hk, Ht, Httl in Hage.
    pose proof (time_Sub_pos _ _ (Hold _ _ Hit)). lia. }
  exists w', ss. split; [exact Hp|]. split; [exact Hz|].
  split; [|split; [exact Htl | split; [exact Hi | exact Hwf']]].
  rewrite <- Htl. apply size_zero_iff_head_is_tail_core; assumption.
Qed.

Lemma prune_empties_buffer_witness :
  maxItemTTL (buf (tick 1 one_batch_world)) = 0 /\
  exists w' ss,
    prune 2 (tick 1 one_batch_world) = Ok (tt, w', ss) /\
    size (buf w') = 0 /\ head (buf w') = tail (buf (tick 1 one_batch_world)).
Proof.
  split; [reflexivity|].
  destruct (prune_empties_buffer (tick 1 one_batch_world) 2
              (wf_tick 1 _ wf_one_batch_world) eq_refl one_batch_items_old)
    as (w' & ss & Hrun & Hsz & Hh & _); [simpl; lia|].
  exists w', ss. auto.
Defined.



(** ** Readers behind the tail and Subscription.Next *)

Lemma next_implies_ready_allocated index evs w :
  next_implies_ready w -> next_implies_ready (allocated index evs w).
Proof.
  intros H l lk Hl. simpl in Hl.
  apply lookup_app_Some in Hl as [Hl | [_ Hl]]; [eauto|].
  apply list_lookup_singleton_Some in Hl as [_ <-]. simpl. congruence.
Qed.

Lemma next_implies_ready_step w w' :
  wf w -> writer_step w w' -> next_implies_ready w -> next_implies_ready w'.
Proof.
  intros Hwf Hstep Hinv.
  assert (Hquiet : forall ss, Forall head_only ss -> replay ss w = Ok w' ->
                     next_implies_ready w').
  { intros ss Hq Hrep l lk' Hl'.
    assert (Hlen := replay_links_length _ _ _ Hrep).
    destruct (lookup_lt_is_Some_2 (links w) l) as [lk Hl].
    { rewrite <- Hlen. eapply lookup_lt_Some; eauto. }
    rewrite (replay_link_eq _ _ _ _ _ Hrep Hl) in Hl'. injection Hl' as <-.
    destruct (fold_step_link_head_only l ss lk Hq) as (-> & -> & _). eauto. }
  destruct Hstep as [w0 index evs w0' H | w0 w0' H | w0 fuel w0' H].
  - destruct (Append_effect w0 index evs Hwf)
      as (t & it & lkt & w2 & adv & Ht & Hit & Hlk & Hn & Hch & Hd & Hrun & Hrep & Hi & Htl & Hcase).
    unfold exec in H. rewrite Hrun in H. injection H as <-.
    assert (Hadv : Forall head_only adv).
    { destruct Hcase as [(_ & ->) | (_ & h & ih & q & _ & _ & -> & _)]; repeat constructor. }
    intros l lk' Hl'.
    assert (Hlen := replay_links_length _ _ _ Hrep).
    destruct (lookup_lt_is_Some_2 (links (allocated index evs w0)) l) as [lk Hl].
    { rewrite <- Hlen. eapply lookup_lt_Some; eauto. }
    assert (E : lk' = fold_left (step_link l)
                        (append_writes (link it) (length (items w0)) adv) lk).
    { pose proof (replay_link_eq _ _ _ _ _ Hrep Hl) as Hl2. congruence. }
    rewrite E, fold_append_writes.
    destruct (fold_step_link_head_only l adv
                (step_link l lk (SStoreNext (link it) (length (items w0)))) Hadv)
      as (Hn' & Hc' & _).
    cbn [step_link] in Hn', Hc' |- *.
    destruct (link it =? l)%nat eqn:El; [reflexivity|].
    rewrite Hn', Hc'. apply (next_implies_ready_allocated index evs w0 Hinv l lk Hl).
  - apply exec_run in H as ([] & ss & Hrun).
    apply (Hquiet ss); [eapply advanceHead_head_only; exact Hrun|].
    eapply sound_advanceHead; exact Hrun.
  - apply exec_run in H as ([] & ss & Hrun).
    apply (Hquiet ss); [eapply prune_head_only; exact Hrun|].
    eapply sound_prune; exact Hrun.
Qed.

Lemma reachable_next_implies_ready w :
  reachable w -> Z.of_nat (length (links w)) <= MaxInt64 -> next_implies_ready w.
Proof.
  induction 1 as [now sz ttl w Hsz Hnew | w index evs w' Hre IH Hex
                  | w w' Hre IH Hex | w fuel w' Hre IH Hex | w d Hre IH Hd]; intros Hb.
  - cbv in Hnew. injection Hnew as <-. intros l lk Hl. simpl in Hl.
    destruct l; [|discriminate]. injection Hl as <-. simpl. congruence.
  - pose proof Hex as Hex0. apply exec_run in Hex as ([] & ss & Hrun).
    pose proof (Append_replay _ _ _ _ _ Hrun) as Hrep.
    apply replay_links_length in Hrep. simpl in Hrep.
    rewrite length_app in Hrep. simpl in Hrep.
    apply (next_implies_ready_step w w'); [apply reachable_wf; [exact Hre | lia] | | apply IH; lia].
    eapply ws_Append; exact Hex0.
  - pose proof Hex as Hex0. apply exec_run in Hex as ([] & ss & Hrun).
    pose proof (sound_advanceHead _ _ _ _ Hrun) as Hrep.
    apply replay_links_length in Hrep.
    apply (next_implies_ready_step w w'); [apply reachable_wf; [exact Hre | lia] | | apply IH; lia].
    eapply ws_advanceHead; exact Hex0.
  - pose proof Hex as Hex0. apply exec_run in Hex as ([] & ss & Hrun).
    pose proof (sound_prune _ _ _ _ _ Hrun) as Hrep.
    apply replay_links_length in Hrep.
    apply (next_implies_ready_step w w'); [apply reachable_wf; [exact Hre | lia] | | apply IH; lia].
    eapply ws_prune; exact Hex0.
  - intros l lk Hl. simpl in Hl. apply (IH Hb l lk Hl).
Qed.

(** X21: in every reachable state with [Len] above 0, after [advanceHead] a
    live reader still on the old head is told that it was dropped. *)
Theorem dropped_head_reader_fails (w : world) :
  reachable w -> Z.of_nat (length (links w)) <= MaxInt64 -> 0 < size (buf w) ->
  exists h w' ss,
    head (buf w) = Some h /\ advanceHead w = Ok (tt, w', ss) /\
    forall rnd, bufferItem_Next w' ctx_live false rnd (Some h) = Ok (None, Some errDropped).
Proof.
  intros Hre Hb Hpos.
  pose proof (reachable_wf _ Hre Hb) as Hwf.
  pose proof (reachable_next_implies_ready _ Hre Hb) as Hinv.
  destruct (advanceHead_drops_head_core w Hwf Hpos)
    as (h & ih & q & w' & Hh & Hih & Hq & Hrun & _ & _ & _ & Hi & Hd & Hq' & Hwf').
  exists h, w', [SCloseDropped (link ih); SStoreHead q; SAddSize (-1)].
  split; [exact Hh|]. split; [exact Hrun|].
  intros rnd.
  unfold next_of, view in Hq. rewrite Hih in Hq.
  destruct (links w !! link ih) as [lk|] eqn:Hlk; [|discriminate].
  pose proof (sound_advanceHead _ _ _ _ Hrun) as Hrep.
  pose proof (replay_link_eq _ _ _ _ _ Hrep Hlk) as Hlk'.
  cbn [fold_left step_link] in Hlk'. rewrite Nat.eqb_refl in Hlk'.
  assert (Hih' : items w' !! h = Some ih) by (rewrite Hi; exact Hih).
  rewrite (Next_on_link w' ctx_live false rnd h ih _ Hih' Hlk').
  rewrite select_only_ch; [reflexivity|].
  cbn. apply (Hinv _ _ Hlk). congruence.
Qed.

Lemma dropped_head_reader_fails_witness :
  0 < size (buf one_batch_world) /\
  exists h w' ss,
    head (buf one_batch_world) = Some h /\ advanceHead one_batch_world = Ok (tt, w', ss) /\
    forall rnd, bufferItem_Next w' ctx_live false rnd (Some h) = Ok (None, Some errDropped).
Proof.
  assert (Hpos : 0 < size (buf one_batch_world)) by (simpl; lia).
  split; [exact Hpos|].
  exact (dropped_head_reader_fails _ reachable_one_batch_world links_one_batch_world Hpos).
Defined.

(** X22: whatever the context, the forced close and the draw of the select,
    [Next] on an item whose dropped signal is closed never returns a
    successor. *)
Theorem dropped_item_has_no_successor (w : world) (ctx : Context) (fc : bool) (rnd : nat)
    (p : ptr) (it : bufferItem) (lk : bufferLink) (n : ptr) :
  items w !! p = Some it -> links w !! link it = Some lk -> droppedCh lk = true ->
  bufferItem_Next w ctx fc rnd (Some p) <> Ok (Some n, None).
Proof.
  intros Hit Hlk Hd. rewrite (Next_on_link w ctx fc rnd p it lk Hit Hlk), Hd.
  destruct (select_ready rnd _) as [[| |]|]; discriminate.
Qed.

Lemma dropped_item_has_no_successor_witness :
  bufferItem_Next dropped_head_world (ctx_done context_Canceled) true 2 (Some 0%nat)
  <> Ok (Some 1%nat, None).
Proof.
  exact (dropped_item_has_no_successor dropped_head_world (ctx_done context_Canceled) true 2
           0%nat _ (mkLink (Some 1%nat) true true) 1%nat eq_refl eq_refl eq_refl).
Defined.

(** X23: a [Next] that returns gives an item or an error, never both and
    never neither. *)
Theorem Next_item_xor_error (w : world) (ctx : Context) (fc : bool) (rnd : nat)
    (i nxt : option ptr) (err : option error) :
  bufferItem_Next w ctx fc rnd i = Ok (nxt, err) ->
  (is_Some nxt /\ err = None) \/ (nxt = None /\ is_Some err).
Proof.
  unfold bufferItem_Next.
  destruct i as [p|]; [|discriminate].
  destruct (items w !! p) as [it|]; [|discriminate].
  destruct (links w !! link it) as [lk|]; [|discriminate].
  destruct (select_ready rnd _) as [c|] eqn:Hsel; [|discriminate].
  pose proof (ready_cases_In _ _ _ _ (select_ready_In _ _ _ Hsel)) as Hc.
  destruct c.
  - destruct ctx as [|e]; [discriminate|]. intros H. injection H as <- <-. right. eauto.
  - intros H. injection H as <- <-. right. eauto.
  - destruct (droppedCh lk); [intros H; injection H as <- <-; right; eauto|].
    destruct (next lk) as [m|]; [|intros H; injection H as <- <-; right; eauto].
    destruct (items w !! m) as [nit|]; [|discriminate].
    destruct (Err nit); intros H; injection H as <- <-; [right | left]; eauto.
Qed.

Lemma Next_item_xor_error_witness :
  (is_Some (Some 1%nat) /\ @None error = None) \/ (Some 1%nat = None /\ is_Some (@None error)).
Proof.
  apply (Next_item_xor_error one_batch_world ctx_live false 0 (Some 0%nat)).
  vm_compute. reflexivity.
Defined.

(** The steps of a [Subscription.Next] that delivers. *)
Lemma Next_loop_success rnds :
  forall w ctx s evs s',
  Next_loop rnds w ctx s = Ok ((evs, None), s') ->
  evs <> [] /\ state s' = state s /\ req s' = req s /\ forceClosed s' = forceClosed s /\
  exists p n nit,
    skipped w (req s) (currentItem s) (Some p) /\
    next_of w p = Some n /\ items w !! n = Some nit /\ Err nit = None /\
    currentItem s' = Some n /\ evs = filter (req s) (Events nit).
Proof.
  induction rnds as [|rnd rnds IH]; intros w ctx s evs s' H; [discriminate|].
  simpl in H.
  destruct (bufferItem_Next w ctx (forceClosed s) rnd (currentItem s))
    as [[nxt [err|]]| | |] eqn:Estep; try discriminate.
  - destruct (state s =? subscriptionStateClosed); discriminate.
  - destruct nxt as [n|]; [|discriminate].
    destruct (Next_success_inv _ _ _ _ _ _ Estep) as (p & nit & Hc & Hn & Hnit & He).
    rewrite Hnit in H. cbv zeta in H.
    destruct (length (filter (req s) (Events nit)) =? 0)%nat eqn:El.
    + apply Nat.eqb_eq in El.
      destruct (IH w ctx (with_currentItem (Some n) s) evs s' H)
        as (Hne & Hs & Hq & Hf & p' & n' & nit' & Hsk & Hn' & Hnit' & He' & Hcur & Hev).
      simpl in *.
      split; [exact Hne|]. split; [exact Hs|]. split; [exact Hq|]. split; [exact Hf|].
      exists p', n', nit'. split; [|auto].
      rewrite Hc. eapply skipped_step; eauto.
    + apply Nat.eqb_neq in El. injection H as <- <-. simpl.
      split; [intros E; rewrite E in El; simpl in El; lia|].
      split; [reflexivity|]. split; [reflexivity|]. split; [reflexivity|].
      exists p, n, nit. rewrite Hc. repeat split; auto. constructor.
Qed.

(** X26: when [Subscription.Next] returns events and no error, the
    subscription was not closed, the events are non-empty and are the
    filtered events of the item the cursor now stands on, and that item was
    reached from the old cursor by passing only items whose filtered events
    were empty; state, request and forced close are unchanged. *)
Theorem Next_delivers_first_match (rnds : list nat) (w : world) (ctx : Context)
    (s : Subscription) (evs : list Event) (s' : Subscription) :
  Subscription_Next rnds w ctx s = Ok ((evs, None), s') ->
  state s <> subscriptionStateClosed /\
  evs <> [] /\ state s' = state s /\ req s' = req s /\ forceClosed s' = forceClosed s /\
  exists p n nit,
    skipped w (req s) (currentItem s) (Some p) /\
    next_of w p = Some n /\ items w !! n = Some nit /\ Err nit = None /\
    currentItem s' = Some n /\ evs = filter (req s) (Events nit).
Proof.
  unfold Subscription_Next.
  destruct (state s =? subscriptionStateClosed) eqn:Est; [discriminate|].
  apply Z.eqb_neq in Est. intros H. split; [exact Est|].
  exact (Next_loop_success rnds w ctx s evs s' H).
Qed.

Lemma Next_delivers_first_match_witness :
  Subscription_Next [0%nat] one_batch_world ctx_live sub_at_sentinel =
    Ok (([ev_jobs_A], None),
        mkSubscription subscriptionStateOpen req_jobs_star (Some 1%nat) false) /\
  exists n nit, items one_batch_world !! n = Some nit /\
    [ev_jobs_A] = filter req_jobs_star (Events nit).
Proof.
  assert (H : Subscription_Next [0%nat] one_batch_world ctx_live sub_at_sentinel =
              Ok (([ev_jobs_A], None),
                  mkSubscription subscriptionStateOpen req_jobs_star (Some 1%nat) false))
    by (vm_compute; reflexivity).
  split; [exact H|].
  destruct (Next_delivers_first_match _ _ _ _ _ _ H)
    as (_ & _ & _ & _ & _ & p & n & nit & _ & _ & Hnit & _ & _ & Hev).
  exists n, nit. split; [exact Hnit | exact Hev].
Defined.

(** from Publish to the subscriber. *)
Lemma publish_reaches_subscriber (e : EventPublisher) (index : Z) (evs : list Event)
    (rq : SubscribeRequest) (t c : ptr) (it cit : bufferItem) :
  wf (events e) -> publishCh e = [] ->
  tail (buf (events e)) = Some t -> items (events e) !! t = Some it ->
  items (events e) !! c = Some cit -> link cit = link it ->
  0 < size (buf (events e)) \/ 1 <= maxSize (buf (events e)) ->
  filter rq evs <> [] ->
  exists e',
    handleUpdates_step (Publish index evs e) = Ok e' /\
    publishCh e' = [] /\
    forall rnd rnds,
      Subscription_Next (rnd :: rnds) (events e') ctx_live
        (mkSubscription subscriptionStateOpen rq (Some c) false)
      = Ok ((filter rq evs, None),
            mkSubscription subscriptionStateOpen rq
              (Some (length (items (events e)))) false).
Proof.
  intros Hwf Hq Htl Hit Hcit Hlink Hcap Hne.
  destruct (Append_wakes_tail_reader_core (events e) index evs t c it cit Hwf Htl Hit Hcit Hlink)
    as (w' & ss & Hrun & Htl' & Hnew & Hnext).
  assert (Hevs : (0 <? length evs)%nat = true).
  { destruct evs; [exfalso; apply Hne; reflexivity | reflexivity]. }
  exists (mkPublisher w' (pruneTick e) []).
  split.
  { unfold Publish. rewrite Hevs. unfold handleUpdates_step. cbn [publishCh].
    rewrite Hq. cbn [app]. unfold sendEvents. cbn [ce_index ce_events events pruneTick publishCh].
    rewrite Hrun. reflexivity. }
  split; [reflexivity|]. cbn [events].
  intros rnd rnds.
  assert (Hev : (maxSize (buf (events e)) <? 1) && (size (buf (events e)) =? 0) = false).
  { apply andb_false_iff. destruct Hcap as [Hp | Hp].
    - right. apply Z.eqb_neq. lia.
    - left. apply Z.ltb_ge. lia. }
  unfold Subscription_Next. cbn [state].
  change (subscriptionStateOpen =? subscriptionStateClosed) with false. cbv iota.
  cbn [Next_loop forceClosed currentItem].
  rewrite Hnext, Hev, Hnew. cbv zeta. cbn [Events req with_currentItem state forceClosed].
  destruct (length (filter rq evs) =? 0)%nat eqn:El; [|reflexivity].
  apply Nat.eqb_eq in El. apply length_zero_iff_nil in El. contradiction.
Qed.

(** ** The publisher *)

Lemma reachable_items_no_error w :
  reachable w -> Z.of_nat (length (links w)) <= MaxInt64 ->
  forall p it, items w !! p = Some it -> Err it = None.
Proof.
  induction 1 as [now sz ttl w Hsz Hnew | w index evs w' Hre IH Hex
                  | w w' Hre IH Hex | w fuel w' Hre IH Hex | w d Hre IH Hd]; intros Hb p it Hp.
  - cbv in Hnew. injection Hnew as <-. simpl in Hp.
    destruct p; [|discriminate]. injection Hp as <-. reflexivity.
  - pose proof Hex as Hex0. apply exec_run in Hex as ([] & ss & Hrun).
    pose proof (Append_replay _ _ _ _ _ Hrun) as Hrep.
    apply replay_links_length in Hrep. simpl in Hrep.
    rewrite length_app in Hrep. simpl in Hrep.
    assert (Hb' : Z.of_nat (length (links w)) <= MaxInt64) by lia.
    destruct (Append_effect w index evs (reachable_wf _ Hre Hb'))
      as (t & it0 & lkt & w2 & adv & _ & _ & _ & _ & _ & _ & Hrun2 & _ & Hi & _).
    unfold run in Hrun. rewrite Hrun2 in Hrun. injection Hrun as <- _.
    rewrite Hi in Hp. apply lookup_app_Some in Hp as [Hp | [_ Hp]]; [eauto|].
    apply list_lookup_singleton_Some in Hp as [_ <-]. reflexivity.
  - apply exec_run in Hex as ([] & ss & Hrun).
    pose proof (sound_advanceHead _ _ _ _ Hrun) as Hrep.
    pose proof (replay_links_length _ _ _ Hrep) as Hlen.
    destruct (replay_items _ _ _ Hrep) as [Hi _]. rewrite Hi in Hp.
    apply (IH ltac:(lia) p it Hp).
  - apply exec_run in Hex as ([] & ss & Hrun).
    pose proof (sound_prune _ _ _ _ _ Hrun) as Hrep.
    pose proof (replay_links_length _ _ _ Hrep) as Hlen.
    destruct (replay_items _ _ _ Hrep) as [Hi _]. rewrite Hi in Hp.
    apply (IH ltac:(lia) p it Hp).
  - simpl in Hp. apply (IH Hb p it Hp).
Qed.

(** X20: in every reachable state, [Next] with a live context and no forced
    close, on an item that has a successor and is not dropped, returns that
    successor and no error. *)
Theorem reader_follows_chain (w : world) (p n : ptr) (lk : bufferLink) (rnd : nat) :
  reachable w -> Z.of_nat (length (links w)) <= MaxInt64 ->
  view w p = Some lk -> next lk = Some n -> droppedCh lk = false ->
  bufferItem_Next w ctx_live false rnd (Some p) = Ok (Some n, None).
Proof.
  intros Hre Hb Hv Hn Hd.
  pose proof (reachable_wf _ Hre Hb) as Hwf.
  pose proof (reachable_next_implies_ready _ Hre Hb) as Hinv.
  unfold view in Hv. destruct (items w !! p) as [it|] eqn:Hit; [|discriminate].
  rewrite (Next_on_link w ctx_live false rnd p it lk Hit Hv).
  rewrite select_only_ch; [|cbn; apply (Hinv _ _ Hv); congruence].
  rewrite Hd, Hn.
  destruct Hwf as [_ _ Hr].
  assert (Hch : ch lk = true) by (apply (Hinv _ _ Hv); congruence).
  destruct (Hr _ _ Hv) as [_ Hnx].
  destruct (Hnx n Hn) as [nit Hnit]. rewrite Hnit.
  rewrite (reachable_items_no_error w Hre Hb n nit Hnit). reflexivity.
Qed.

Lemma reader_follows_chain_witness :
  bufferItem_Next one_batch_world ctx_live false 5 (Some 0%nat) = Ok (Some 1%nat, None).
Proof.
  exact (reader_follows_chain one_batch_world 0%nat 1%nat (mkLink (Some 1%nat) true false) 5
           reachable_one_batch_world links_one_batch_world eq_refl eq_refl eq_refl).
Defined.

(** X7: [NewEventPublisher], on any configuration, returns a publisher whose
    buffer holds only the sentinel and is well-formed, with the configured
    capacity, with the [maxItemTTL] field 0 whatever TTL is configured, with
    [pruneTick] 0 and nothing in the publish channel; on it a turn of
    [handleUpdates] blocks and a turn of [periodicPrune] changes nothing. *)
Theorem NewEventPublisher_fresh (cfg : EventPublisherCfg) (now : Z) :
  exists e,
    NewEventPublisher cfg (empty_world now) = Ok e /\
    events e = sentinel_world now (EventBufferSize cfg) /\
    wf (events e) /\
    maxItemTTL (buf (events e)) = 0 /\ pruneTick e = 0 /\ publishCh e = [] /\
    handleUpdates_step e = Blocked /\
    forall fuel, periodicPrune_step (S fuel) e = Ok e.
Proof.
  exists (mkPublisher (sentinel_world now (EventBufferSize cfg)) 0 []).
  unfold NewEventPublisher. rewrite newEventBuffer_eq.
  split; [reflexivity|]. split; [reflexivity|].
  split; [apply wf_sentinel_world|].
  repeat split.
Qed.



(** X27: a subscriber placed by [NextLink] on the tail of a well-formed
    buffer with room blocks; after [Publish] of a batch with a matching
    event and one turn of [handleUpdates], [Subscription.Next] returns the
    filtered batch and leaves the cursor on the new tail. *)
Theorem subscribe_then_publish (e : EventPublisher) (index : Z) (evs : list Event)
    (rq : SubscribeRequest) (t : ptr) :
  wf (events e) -> publishCh e = [] -> tail (buf (events e)) = Some t ->
  0 < size (buf (events e)) \/ 1 <= maxSize (buf (events e)) ->
  filter rq evs <> [] ->
  exists c w1 e',
    NextLink t (events e) = Ok (c, w1, []) /\
    (forall rnd, bufferItem_Next w1 ctx_live false rnd (Some c) = Blocked) /\
    handleUpdates_step (Publish index evs (mkPublisher w1 (pruneTick e) (publishCh e))) = Ok e' /\
    forall rnd rnds,
      exists s',
      Subscription_Next (rnd :: rnds) (events e') ctx_live
        (mkSubscription subscriptionStateOpen rq (Some c) false)
      = Ok ((filter rq evs, None), s') /\
      currentItem s' = tail (buf (events e')).
Proof.
  intros Hwf Hq Htl Hcap Hne.
  pose proof Hwf as [ (L & K & Hc & _ & _ & HtL & _) _ _].
  destruct (chain_last_inv _ _ _ Hc) as (t' & it & lk & HL & _ & Hit & _).
  assert (t' = t) by congruence. subst t'.
  destruct (NextLink_tail_core (events e) t it Hwf Htl Hit)
    as (w1 & Hnl & Hi1 & Hl1 & Hb1 & Hc1 & Hwf1 & Hsame).
  assert (Hit1 : items w1 !! t = Some it)
    by (rewrite Hi1; apply lookup_app_l_Some; exact Hit).
  assert (Hcit : items w1 !! length (items (events e)) = Some (mkItem [] 0 None (link it) zero_Time)).
  { rewrite Hi1. rewrite lookup_app_r by lia. rewrite Nat.sub_diag. reflexivity. }
  assert (Htl1 : tail (buf w1) = Some t) by (rewrite Hb1; exact Htl).
  exists (length (items (events e))), w1.
  destruct (publish_reaches_subscriber (mkPublisher w1 (pruneTick e) (publishCh e))
              index evs rq t (length (items (events e))) it
              (mkItem [] 0 None (link it) zero_Time))
    as (e' & Hstep & Hq' & Hnext); cbn [events publishCh]; auto.
  { rewrite Hb1. exact Hcap. }
  exists e'. split; [exact Hnl|]. split.
  { intros rnd. rewrite Hsame. apply (tail_reader_blocks_core w1 t t it it rnd Hwf1); auto. }
  split; [exact Hstep|].
  intros rnd rnds. eexists. split; [apply Hnext|]. cbn [currentItem].
  clear Hnext. unfold Publish in Hstep.
  destruct evs as [|ev evs]; [exfalso; apply Hne; destruct rq; reflexivity|].
  cbn in Hstep. unfold handleUpdates_step in Hstep. cbn [publishCh] in Hstep.
  rewrite Hq in Hstep. cbn [app] in Hstep. unfold sendEvents in Hstep.
  cbn [ce_index ce_events events pruneTick publishCh] in Hstep.
  destruct (Append_wakes_tail_reader_core w1 index (ev :: evs) t t it it Hwf1 Htl1 Hit1 Hit1 eq_refl)
    as (w2 & ss & Hrun & Htl2 & _).
  rewrite Hrun in Hstep. injection Hstep as <-. cbn [events].
  rewrite Htl2. rewrite Hi1, length_app. simpl.
  (* the cursor is the item just appended *)
  reflexivity.
Qed.

Lemma subscribe_then_publish_witness :
  exists c w1 e',
    NextLink 0%nat (events fresh_publisher) = Ok (c, w1, []) /\
    handleUpdates_step (Publish 1 [ev_jobs_A] (mkPublisher w1 0 [])) = Ok e' /\
    forall rnd rnds, exists s',
      Subscription_Next (rnd :: rnds) (events e') ctx_live
        (mkSubscription subscriptionStateOpen req_jobs_star (Some c) false)
      = Ok ((filter req_jobs_star [ev_jobs_A], None), s').
Proof.
  destruct (subscribe_then_publish fresh_publisher 1 [ev_jobs_A] req_jobs_star 0%nat
              (wf_sentinel_world 0 2) eq_refl eq_refl)
    as (c & w1 & e' & Hnl & _ & Hstep & Hnext).
  - right. simpl. lia.
  - vm_compute. discriminate.
  - exists c, w1, e'. split; [exact Hnl|]. split; [exact Hstep|].
    intros rnd rnds. destruct (Hnext rnd rnds) as (s' & H & _). exists s'. exact H.
Defined.

(** X24: in every reachable state, [NextNoBlock] on an item that is not
    dropped changes nothing and returns what a live [Next] would: the
    successor, or nil where [Next] would block. *)
Theorem NextNoBlock_agrees_with_Next (w : world) (p : ptr) (lk : bufferLink) :
  reachable w -> Z.of_nat (length (links w)) <= MaxInt64 ->
  view w p = Some lk -> droppedCh lk = false ->
  exists r,
    NextNoBlock p w = Ok (r, w, []) /\
    forall rnd,
      bufferItem_Next w ctx_live false rnd (Some p) =
      match r with
      | Some n => Ok (Some n, None)
      | None => Blocked
      end.
Proof.
  intros Hre Hb Hv Hd.
  pose proof (reachable_wf _ Hre Hb) as [_ _ Hr].
  pose proof (reachable_next_implies_ready _ Hre Hb) as Hinv.
  unfold view in Hv. destruct (items w !! p) as [it|] eqn:Hit; [|discriminate].
  exists (next lk). split.
  { unfold NextNoBlock, bind, deref_item, deref_link, ret. rewrite Hit, Hv. reflexivity. }
  intros rnd. rewrite (Next_on_link w ctx_live false rnd p it lk Hit Hv).
  destruct (Hr _ _ Hv) as [Hrdy Hnx].
  destruct (next lk) as [n|] eqn:Hn.
  - rewrite select_only_ch; [|apply (Hinv _ _ Hv); congruence].
    rewrite Hd. destruct (Hnx n eq_refl) as [nit Hnit]. rewrite Hnit.
    rewrite (reachable_items_no_error w Hre Hb n nit Hnit). reflexivity.
  - rewrite select_nothing; [reflexivity|].
    destruct (ch lk) eqn:Hch; [|reflexivity]. exfalso. apply Hrdy; reflexivity.
Qed.

Lemma NextNoBlock_agrees_with_Next_witness :
  exists r,
    NextNoBlock 0%nat one_batch_world = Ok (r, one_batch_world, []) /\
    forall rnd,
      bufferItem_Next one_batch_world ctx_live false rnd (Some 0%nat) =
      match r with Some n => Ok (Some n, None) | None => Blocked end.
Proof.
  exact (NextNoBlock_agrees_with_Next one_batch_world 0%nat (mkLink (Some 1%nat) true false)
           reachable_one_batch_world links_one_batch_world eq_refl eq_refl).
Defined.

(** ** What filter returns *)

Lemma filter_shape req es :
  filter req es =
  if (length es =? 0)%nat then es
  else if (total_hits req es =? 0)%nat then []
  else if (total_hits req es =? length es)%nat then es
  else flat_map (fun e => repeat e (hits req e)) es.
Proof.
  unfold filter. cbv zeta. rewrite count_loop_spec, copy_loop_spec, Nat.add_0_l.
  reflexivity.
Qed.

Lemma hits_pos req e : event_matches req e = true <-> (0 < hits req e)%nat.
Proof.
  unfold event_matches, hits. destruct (topics req !! Topic e) as [ks|].
  - rewrite existsb_filter_length.
    destruct (length (List.filter (key_matches e) ks)); simpl; split; intros; try lia; congruence.
  - split; [discriminate | lia].
Qed.

Lemma total_hits_ge req es e : In e es -> (hits req e <= total_hits req es)%nat.
Proof.
  induction es as [|x es IH]; simpl; [tauto|].
  intros [-> | H]; [lia | specialize (IH H); lia].
Qed.

Lemma total_hits_zero req es :
  total_hits req es = 0%nat <-> (forall e, In e es -> event_matches req e = false).
Proof.
  split.
  - intros H e He. pose proof (total_hits_ge req es e He) as Hle.
    destruct (event_matches req e) eqn:E; [|reflexivity].
    apply hits_pos in E. lia.
  - induction es as [|x es IH]; simpl; [reflexivity|]. intros H.
    rewrite IH by (intros; apply H; auto).
    assert (Hx : event_matches req x = false) by (apply H; auto).
    destruct (hits req x) eqn:Eh; [reflexivity|].
    assert (event_matches req x = true) by (apply hits_pos; lia). congruence.
Qed.

(** X1: [filter] never invents an event: every event it returns is one of the
    input events. *)
Theorem filter_subset (req : SubscribeRequest) (es : list Event) (e : Event) :
  In e (filter req es) -> In e es.
Proof.
  rewrite filter_shape.
  destruct (length es =? 0)%nat; [tauto|].
  destruct (total_hits req es =? 0)%nat; [simpl; tauto|].
  destruct (total_hits req es =? length es)%nat; [tauto|].
  intros H. apply in_flat_map in H as (x & Hx & Hr).
  apply repeat_spec in Hr. subst. exact Hx.
Qed.

Lemma filter_subset_witness :
  In ev_jobs_X (filter req_jobs_star [ev_jobs_X; ev_nodes_N]) /\
  In ev_jobs_X [ev_jobs_X; ev_nodes_N].
Proof.
  assert (H : In ev_jobs_X (filter req_jobs_star [ev_jobs_X; ev_nodes_N])).
  { vm_compute. left. reflexivity. }
  split; [exact H | exact (filter_subset _ _ _ H)].
Defined.

(** [filter] never loses a matching event. *)
Lemma filter_complete_core (req : SubscribeRequest) (es : list Event) (e : Event) :
  In e es -> event_matches req e = true -> In e (filter req es).
Proof.
  intros He Hm. rewrite filter_shape.
  destruct (length es =? 0)%nat; [exact He|].
  pose proof (total_hits_ge req es e He) as Hle.
  pose proof (proj1 (hits_pos req e) Hm) as Hpos.
  destruct (total_hits req es =? 0)%nat eqn:E0.
  { apply Nat.eqb_eq in E0. lia. }
  destruct (total_hits req es =? length es)%nat; [exact He|].
  apply in_flat_map. exists e. split; [exact He|].
  destruct (hits req e); [lia|]. simpl. auto.
Qed.

(** X2: [filter] never loses a matching event: an input event whose topic is
    in the request and whose key is listed for it, literally or by the
    wildcard, occurs in the result. *)
Theorem filter_complete (req : SubscribeRequest) (es : list Event) (e : Event) :
  In e es -> event_matches req e = true -> In e (filter req es).
Proof. exact (filter_complete_core req es e). Qed.

Lemma filter_complete_witness :
  In ev_jobs_X [ev_jobs_X; ev_nodes_N] /\
  event_matches req_jobs_star ev_jobs_X = true /\
  In ev_jobs_X (filter req_jobs_star [ev_jobs_X; ev_nodes_N]).
Proof.
  assert (Hin : In ev_jobs_X [ev_jobs_X; ev_nodes_N]) by (left; reflexivity).
  assert (Hm : event_matches req_jobs_star ev_jobs_X = true) by (vm_compute; reflexivity).
  split; [exact Hin|]. split; [exact Hm|]. exact (filter_complete _ _ _ Hin Hm).
Defined.

(** X3: the result of [filter] has no element exactly when no input event
    matches the request. *)
Theorem filter_nil_iff (req : SubscribeRequest) (es : list Event) :
  filter req es = [] <-> (forall e, In e es -> event_matches req e = false).
Proof.
  split.
  - intros H e He. destruct (event_matches req e) eqn:E; [|reflexivity].
    pose proof (filter_complete_core req es e He E) as Hin. rewrite H in Hin. destruct Hin.
  - intros H. apply total_hits_zero in H. rewrite filter_shape, H.
    destruct es; reflexivity.
Qed.

(** X4: when every topic of the request lists at most one key, [filter]
    returns exactly the matching events, once each and in input order. *)
Theorem filter_one_key_per_topic (req : SubscribeRequest) (es : list Event) :
  (forall t ks, topics req !! t = Some ks -> (length ks <= 1)%nat) ->
  filter req es = List.filter (event_matches req) es.
Proof.
  intros H. apply filter_single_hit. apply Forall_forall. intros e _.
  unfold hits. destruct (topics req !! Topic e) as [ks|] eqn:E; [|lia].
  pose proof (H _ _ E). pose proof (List.filter_length_le (key_matches e) ks). lia.
Qed.

Lemma filter_one_key_per_topic_witness :
  (forall t ks, topics req_jobs_star !! t = Some ks -> (length ks <= 1)%nat) /\
  filter req_jobs_star [ev_jobs_X; ev_nodes_N] =
  List.filter (event_matches req_jobs_star) [ev_jobs_X; ev_nodes_N].
Proof.
  assert (H : forall t ks, topics req_jobs_star !! t = Some ks -> (length ks <= 1)%nat).
  { intros t ks Hl. unfold req_jobs_star in Hl. cbn [topics] in Hl.
    apply lookup_singleton_Some in Hl as [_ <-]. simpl. lia. }
  split; [exact H | exact (filter_one_key_per_topic _ _ H)].
Defined.
